(** * A counting semaphore for cooperative concurrency (src/semaphore.ts)

    Shallow embedding of the [Semaphore] class and proofs of its
    invariants, its FIFO hand-off and its conservation property.

    Layout:
    - [Number]: the values a JavaScript [number] field holds here;
    - [Sem]: the object, the effect monad its methods run in, and the
      constructor, [acquire] and [release] as they are written;
    - [Sched]: the single-threaded scheduler view: calls register on the
      [_lock] promise chain in call order and are served one by one;
    - the theorems. *)

From Stdlib Require Import ZArith QArith List String Bool Lia Sorted.
Import ListNotations.

Set Implicit Arguments.
Close Scope Q_scope.

(* ------------------------------------------------------------------ *)
(** ** Numbers *)

(** [_permits] and [_maxPermits] are JavaScript numbers, that is IEEE 754
    binary64 values.  The class only compares them ([<], [>]) and steps them
    by one ([++], [--]).  A number is modelled as a rational, an infinity or
    NaN; the finite values that occur are the rationals a binary64 holds, and
    every result of arithmetic is rounded to binary64, to the nearest value
    and on a tie to the one with the even significand.  The two zeros are
    one value here: the class cannot tell them apart. *)
Module Number.

Inductive number : Type :=
| Fin (q : Q)
| PosInf
| NegInf
| NaN.

(** [(a/b) / 2^t] as a fraction. *)
Definition scale (a b t : Z) : Z * Z :=
  if (0 <=? t)%Z then (a, b * 2 ^ t)%Z else (a * 2 ^ (- t), b)%Z.

(** The integer part of [log2 (a/b)], for [a, b > 0]. *)
Definition ilog2 (a b : Z) : Z :=
  let e := (Z.log2 a - Z.log2 b)%Z in
  let '(a', b') := scale a b e in
  if (b' <=? a')%Z then e else (e - 1)%Z.

(** [a/b] rounded to the nearest integer, a tie to the even one
    ([a >= 0], [b > 0]). *)
Definition rne (a b : Z) : Z :=
  let f := (a / b)%Z in
  let r2 := (2 * (a mod b))%Z in
  if (r2 <? b)%Z then f
  else if (b <? r2)%Z then (f + 1)%Z
  else if Z.even f then f else (f + 1)%Z.

(** The positive rational [a/b] rounded to binary64: 53 significant bits,
    the exponent of the leading bit no lower than -1022 (below that the
    values are the multiples of 2^-1074), [None] when the rounded value
    reaches 2^1024. *)
Definition round_pos (a b : Z) : option Q :=
  let e := Z.max (ilog2 a b) (-1022) in
  let t := (e - 52)%Z in
  let '(a', b') := scale a b t in
  let k := rne a' b' in
  if (0 <=? t)%Z then
    if (2 ^ 1024 <=? k * 2 ^ t)%Z then None
    else Some (inject_Z (k * 2 ^ t))
  else Some (Qred (k # Z.to_pos (2 ^ (- t)))).

(** A rational rounded to binary64. *)
Definition round64 (x : Q) : number :=
  match Qnum x with
  | Z0 => Fin 0
  | Zpos a =>
      match round_pos (Zpos a) (Zpos (Qden x)) with
      | Some m => Fin m
      | None => PosInf
      end
  | Zneg a =>
      match round_pos (Zpos a) (Zpos (Qden x)) with
      | Some m => Fin (- m)
      | None => NegInf
      end
  end.

(** The number an integer denotes: [Number(z)]. *)
Definition of_Z (z : Z) : number := round64 (inject_Z z).

Definition zero : number := of_Z 0%Z.

(** [a < b]: false as soon as one side is NaN. *)
Definition lt (a b : number) : bool :=
  match a, b with
  | NaN, _ | _, NaN => false
  | Fin x, Fin y => if Qlt_le_dec x y then true else false
  | Fin _, PosInf => true
  | Fin _, NegInf => false
  | PosInf, _ => false
  | NegInf, NegInf => false
  | NegInf, _ => true
  end.

(** [a > b] is [b < a]. *)
Definition gt (a b : number) : bool := lt b a.

(** [a <= b] in the mathematical sense (never true of NaN). *)
Definition le (a b : number) : bool :=
  match a, b with
  | NaN, _ | _, NaN => false
  | Fin x, Fin y => if Qlt_le_dec y x then false else true
  | _, PosInf => true
  | NegInf, _ => true
  | _, _ => false
  end.

(** [a == b] on values (never true of NaN). *)
Definition eq (a b : number) : bool := le a b && le b a.

(** [x--] and [x++]: the binary64 difference and sum. *)
Definition dec (a : number) : number :=
  match a with
  | Fin x => round64 (x - 1)
  | other => other
  end.

Definition inc (a : number) : number :=
  match a with
  | Fin x => round64 (x + 1)
  | other => other
  end.

(** An integer taken as it is, and what rounding makes of a non-negative
    integer: the nearest multiple of the spacing of binary64 around it. *)
Definition int (z : Z) : number := Fin (inject_Z z).

Definition grid (z : Z) : Z := (2 ^ Z.max 0 (Z.log2 z - 52))%Z.

Definition nearest (z : Z) : Z := (rne z (grid z) * grid z)%Z.

(** Where binary64 ends, and the largest integer up to which all integers
    are binary64 values. *)
Definition top : Z := (2 ^ 1024)%Z.

(** How [round_pos] sees [a/b]: the exponent of the last place, the
    significand rounded there, and the value [k * 2^t] written as a
    number. *)
Definition expo (a b : Z) : Z := (Z.max (ilog2 a b) (-1022) - 52)%Z.

Definition signif (a b : Z) : Z :=
  rne (a * 2 ^ Z.max 0 (- expo a b))%Z (b * 2 ^ Z.max 0 (expo a b))%Z.

Definition encode (k t : Z) : option Q :=
  if (0 <=? t)%Z then
    if (2 ^ 1024 <=? k * 2 ^ t)%Z then None
    else Some (inject_Z (k * 2 ^ t))
  else Some (Qred (k # Z.to_pos (2 ^ (- t)))).

(** A number whose value is an integer. *)
Definition is_integer (a : number) : Prop :=
  exists z : Z, eq a (of_Z z) = true.

End Number.
Import Number.

(* ------------------------------------------------------------------ *)
(** ** The object and its methods *)

Module Sem.

(** [SemaphoreOpts]: both fields optional. *)
Record SemaphoreOpts : Type := mkOpts {
  opt_debug : option bool;
  opt_name : option string
}.

(** The default argument [opts = {}]. *)
Definition no_opts : SemaphoreOpts := mkOpts None None.

(** An entry of [waiting] is the [resolve] function of the promise one
    [acquire] call awaits.  It is named by that call: calls are numbered in
    the order they are issued. *)
Definition resolver : Type := nat.

(** The object.  [_lock] lives in the scheduler ([Sched.World]): it is
    the chain of calls that await their turn. *)
Record Semaphore : Type := mkSemaphore {
  _permits : number;
  waiting : list resolver;
  _maxPermits : number;
  debug : bool;
  name : string
}.

(** The getters. *)
Definition permits (s : Semaphore) : number := _permits s.
Definition maxPermits (s : Semaphore) : number := _maxPermits s.

(** The lines written to the console, one constructor per template
    string, with the values interpolated into it. *)
Inductive message : Type :=
| MsgInitialized (max : number) (nm : string)
| MsgAttempting (nm : string) (current : number)
| MsgAcquired (nm : string) (remaining : number)
| MsgQueuing (nm : string)
| MsgAcquiredFromQueue (nm : string)
| MsgReleasing (nm : string)
| MsgResolving (nm : string)
| MsgReleased (nm : string) (available : number)
| MsgOverRelease (nm : string) (max : number).

(** What a method does to the world outside the object. *)
Inductive action : Type :=
| ConsoleLog (m : message)
| ConsoleWarn (m : message)
| Resolve (r : resolver)
| ReleaseLock.

Inductive exn : Type :=
| Error (msg : string).

Inductive completion (A : Type) : Type :=
| Normal (a : A)
| Throw (e : exn).
Arguments Throw {A} e.

(** A method body: reads and writes [this], emits actions, and completes
    normally or by throwing. *)
Definition M (A : Type) : Type :=
  Semaphore -> completion A * Semaphore * list action.

Definition ret {A} (a : A) : M A := fun s => (Normal a, s, []).

Definition bind {A B} (m : M A) (k : A -> M B) : M B :=
  fun s =>
    match m s with
    | (Normal a, s1, t1) =>
        match k a s1 with
        | (r, s2, t2) => (r, s2, t1 ++ t2)
        end
    | (Throw e, s1, t1) => (Throw e, s1, t1)
    end.

Definition this : M Semaphore := fun s => (Normal s, s, []).

Definition emit (a : action) : M unit := fun s => (Normal tt, s, [a]).

(** Assignments to the two mutable fields ([_maxPermits], [debug] and
    [name] are [readonly]). *)
Definition with_permits (p : number) (x : Semaphore) : Semaphore :=
  mkSemaphore p (waiting x) (_maxPermits x) (debug x) (name x).

Definition with_waiting (w : list resolver) (x : Semaphore) : Semaphore :=
  mkSemaphore (_permits x) w (_maxPermits x) (debug x) (name x).

Definition set_permits (p : number) : M unit :=
  fun s => (Normal tt, with_permits p s, []).

Definition set_waiting (w : list resolver) : M unit :=
  fun s => (Normal tt, with_waiting w s, []).

Declare Scope sem_scope.
Delimit Scope sem_scope with sem.
Notation "x <- m ;; k" := (bind m (fun x => k))
  (at level 61, m at next level, right associativity) : sem_scope.
Notation "m ;; k" := (bind m (fun _ => k))
  (at level 61, right associativity) : sem_scope.
Local Open Scope sem_scope.

(** [if (this.debug) { console.log(...) }] *)
Definition debug_log (m : message) : M unit :=
  s <- this ;;
  if debug s then emit (ConsoleLog m) else ret tt.

(** [if (this.debug) { console.warn(...) }] *)
Definition debug_warn (m : message) : M unit :=
  s <- this ;;
  if debug s then emit (ConsoleWarn m) else ret tt.

(** [this.waiting.push(resolve)] *)
Definition push (r : resolver) : M unit :=
  s <- this ;;
  set_waiting (waiting s ++ [r]).

(** [this.waiting.shift()]: the first entry, or [undefined] on an empty
    array. *)
Definition shift : M (option resolver) :=
  s <- this ;;
  match waiting s with
  | [] => ret None
  | r :: rest => set_waiting rest ;; ret (Some r)
  end.

(** [try { body } finally { releaseLock() }]: the lock is released on
    both exits and the completion of [body] is passed on. *)
Definition try_finally_releaseLock {A} (body : M A) : M A :=
  fun s =>
    match body s with
    | (r, s1, t1) => (r, s1, t1 ++ [ReleaseLock])
    end.

(** The constructor: the instance and the actions of its body, or the
    error thrown. *)
Definition constructor (permits0 : number) (opts : SemaphoreOpts)
  : completion (Semaphore * list action) :=
  if lt permits0 zero then
    Throw (Error
      "Semaphore must be initialized with a non-negative number of permits.")
  else
    let dbg := match opt_debug opts with Some b => b | None => false end in
    let nm := match opt_name opts with Some n => n | None => EmptyString end in
    let s := mkSemaphore permits0 [] permits0 dbg nm in
    Normal (s, if dbg then [ConsoleLog (MsgInitialized (maxPermits s) nm)]
               else []).

(** The critical section of [acquire], from the return of
    [_acquireLock] to the [finally]; the result is [shouldWait]. *)
Definition acquire_critical : M bool :=
  try_finally_releaseLock (
    s <- this ;;
    debug_log (MsgAttempting (name s) (permits s)) ;;
    if gt (_permits s) zero then
      set_permits (dec (_permits s)) ;;
      s' <- this ;;
      debug_log (MsgAcquired (name s') (permits s')) ;;
      ret false
    else
      debug_log (MsgQueuing (name s)) ;;
      ret true).

(** [acquire], up to the point where the call returns or suspends.
    [me] names the promise created under [if (shouldWait)]: its executor
    runs at once and pushes [resolve].  Nothing is awaited between the
    [finally] and the push, so no other call runs in between.  The result
    tells whether the caller is now suspended on that promise. *)
Definition acquire (me : resolver) : M bool :=
  shouldWait <- acquire_critical ;;
  if shouldWait then push me ;; ret true else ret false.

(** The rest of [acquire], run when the awaited promise is resolved. *)
Definition acquire_resumed : M unit :=
  s <- this ;;
  debug_log (MsgAcquiredFromQueue (name s)).

(** [release], whole: it awaits nothing after its turn. *)
Definition release : M unit :=
  try_finally_releaseLock (
    s <- this ;;
    debug_log (MsgReleasing (name s)) ;;
    handed <-
      (if 0 <? List.length (waiting s) then
         r <- shift ;;
         match r with
         | Some resolve =>
             debug_log (MsgResolving (name s)) ;;
             emit (Resolve resolve) ;;
             ret true
         | None => ret false
         end
       else ret false) ;;
    if handed : bool then ret tt
    else
      s1 <- this ;;
      if lt (_permits s1) (_maxPermits s1) then
        set_permits (inc (_permits s1)) ;;
        s2 <- this ;;
        debug_log (MsgReleased (name s2) (permits s2))
      else
        debug_warn (MsgOverRelease (name s1) (maxPermits s1))).

(** The three components of a run. *)
Definition outcome {A} (r : completion A * Semaphore * list action)
  : completion A := fst (fst r).
Definition after {A} (r : completion A * Semaphore * list action)
  : Semaphore := snd (fst r).
Definition trace {A} (r : completion A * Semaphore * list action)
  : list action := snd r.

End Sem.
Import Sem.

(* ------------------------------------------------------------------ *)
(** ** The scheduler: calls, the lock chain, turns *)

Module Sched.

Inductive op : Type :=
| Acquire
| Release.

(** Calls are numbered in the order they are issued. *)
Definition callid : Type := nat.

(** How an [acquire] call obtained its permit. *)
Inductive grant : Type :=
| Immediate
| FromQueue.

(** One instance and what surrounds it.
    - [_lock]: the promise chain.  [_acquireLock] links each call behind
      [this._lock] the moment it is called and the call then awaits its
      predecessor; the chain holds the calls that have registered and have
      not yet passed that await, oldest first.
    - [held]: the call that last passed the await has not called its
      [releaseLock].
    - [completed]: the [acquire] calls that have returned, in the order
      they returned.
    - [rejected]: the calls that ended with an exception.
    - [console]: the lines logged so far. *)
Record World : Type := mkWorld {
  sem : Semaphore;
  _lock : list (callid * op);
  held : bool;
  next_call : callid;
  completed : list (callid * grant);
  rejected : list (callid * exn);
  console : list action
}.

(** The console lines of a trace, the promises it resolves, and whether it
    releases the lock. *)
Definition console_of (t : list action) : list action :=
  filter (fun a => match a with
                   | ConsoleLog _ | ConsoleWarn _ => true
                   | _ => false
                   end) t.

Fixpoint resolved_of (t : list action) : list resolver :=
  match t with
  | [] => []
  | Resolve r :: t' => r :: resolved_of t'
  | _ :: t' => resolved_of t'
  end.

Definition lock_released (t : list action) : bool :=
  existsb (fun a => match a with
                    | ReleaseLock => true
                    | _ => false
                    end) t.

(** The world right after [new Semaphore(...)]:
    [_lock = Promise.resolve()]. *)
Definition boot (s : Semaphore) (t : list action) : World :=
  mkWorld s [] false 0 [] [] (console_of t).

Definition new_world (permits0 : number) (opts : SemaphoreOpts)
  : completion World :=
  match constructor permits0 opts with
  | Normal (s, t) => Normal (boot s t)
  | Throw e => Throw e
  end.

Inductive event : Type :=
| Call (o : op)
| Serve.

(** [_acquireLock], up to [await previousLock]:
    [this._lock = this._lock.then(async () => lock)] puts the caller at
    the end of the chain. *)
Definition _acquireLock (me : callid * op) (w : World) : World :=
  mkWorld (sem w) (_lock w ++ [me]) (held w) (next_call w)
          (completed w) (rejected w) (console w).

(** [Call o]: some task calls [acquire()] or [release()]; the method runs
    up to the await inside [_acquireLock]. *)
Definition call (o : op) (w : World) : World :=
  let w1 := _acquireLock (next_call w, o) w in
  mkWorld (sem w1) (_lock w1) (held w1) (S (next_call w1))
          (completed w1) (rejected w1) (console w1).

(** The continuations of the [acquire] calls whose promise was resolved:
    they are queued as microtasks by [resolve()] itself, before the lock is
    released, hence run before the next call is served. *)
Fixpoint resume (woken : list resolver) (s : Semaphore)
  : Semaphore * list action :=
  match woken with
  | [] => (s, [])
  | _ :: rest =>
      let r := acquire_resumed s in
      let '(s2, t2) := resume rest (after r) in
      (s2, trace r ++ t2)
  end.

Definition note_failure {A} (c : callid) (r : completion A)
           (l : list (callid * exn)) : list (callid * exn) :=
  match r with
  | Normal _ => l
  | Throw e => l ++ [(c, e)]
  end.

(** [Serve]: the oldest call of the chain passes [await previousLock],
    which it can only once the lock is free, and runs up to its next
    suspension or its return. *)
Definition serve (w : World) : World :=
  if held w then w
  else
    match _lock w with
    | [] => w
    | (c, Acquire) :: rest =>
        let r := acquire c (sem w) in
        mkWorld (after r) rest (negb (lock_released (trace r))) (next_call w)
                (match outcome r with
                 | Normal false => completed w ++ [(c, Immediate)]
                 | _ => completed w
                 end)
                (note_failure c (outcome r) (rejected w))
                (console w ++ console_of (trace r))
    | (c, Release) :: rest =>
        let r := release (sem w) in
        let woken := resolved_of (trace r) in
        let '(s2, t2) := resume woken (after r) in
        mkWorld s2 rest (negb (lock_released (trace r))) (next_call w)
                (completed w ++ map (fun i => (i, FromQueue)) woken)
                (note_failure c (outcome r) (rejected w))
                (console w ++ console_of (trace r) ++ console_of t2)
    end.

Definition step (e : event) (w : World) : World :=
  match e with
  | Call o => call o w
  | Serve => serve w
  end.

(** A schedule, oldest event first. *)
Definition run (es : list event) (w : World) : World :=
  fold_left (fun w e => step e w) es w.

(** [await sem.acquire()] / [await sem.release()] with nothing else in
    flight: the call and its turn. *)
Definition perform (o : op) (w : World) : World := serve (call o w).

Fixpoint repeat_op (k : nat) (o : op) (w : World) : World :=
  match k with
  | O => w
  | S k' => repeat_op k' o (perform o w)
  end.

(** The calls a schedule issues, numbered from [c] on. *)
Fixpoint issued (es : list event) (c : callid) : list (callid * op) :=
  match es with
  | [] => []
  | Call o :: es' => (c, o) :: issued es' (S c)
  | Serve :: es' => issued es' c
  end.

(** What the turn of one call, and of a list of calls one after the other,
    does to the object. *)
Definition exec (co : callid * op) (s : Semaphore) : Semaphore :=
  match snd co with
  | Acquire => after (acquire (fst co) s)
  | Release => after (release s)
  end.

Definition exec_all (l : list (callid * op)) (s : Semaphore) : Semaphore :=
  fold_left (fun s co => exec co s) l s.

(** The projections the theorems speak of. *)
Definition order (l : list (callid * grant)) : list callid := map fst l.

Definition from_queue (l : list (callid * grant)) : list callid :=
  map fst (filter (fun cg => match snd cg with
                             | FromQueue => true
                             | Immediate => false
                             end) l).

Definition chain_ids (w : World) : list callid := map fst (_lock w).

(** The worlds a program can bring an instance of capacity [c] into. *)
Definition reachable (c : number) (w : World) : Prop :=
  exists (opts : SemaphoreOpts) (w0 : World) (es : list event),
    new_world c opts = Normal w0 /\ w = run es w0.

(** The ways a turn goes: nobody moves while the lock is held or the chain
    is empty; otherwise one of the five branches of [acquire] and
    [release] is taken, and the lock is free again afterwards. *)
Inductive serves (w : World) : World -> Prop :=
| serves_blocked :
    held w = true ->
    serves w w
| serves_nothing :
    _lock w = [] ->
    serves w w
| serves_granted c rest w' :
    _lock w = (c, Acquire) :: rest ->
    gt (_permits (sem w)) zero = true ->
    sem w' = with_permits (dec (_permits (sem w))) (sem w) ->
    _lock w' = rest ->
    next_call w' = next_call w ->
    completed w' = completed w ++ [(c, Immediate)] ->
    rejected w' = rejected w ->
    held w' = false ->
    serves w w'
| serves_queued c rest w' :
    _lock w = (c, Acquire) :: rest ->
    gt (_permits (sem w)) zero = false ->
    sem w' = with_waiting (waiting (sem w) ++ [c]) (sem w) ->
    _lock w' = rest ->
    next_call w' = next_call w ->
    completed w' = completed w ->
    rejected w' = rejected w ->
    held w' = false ->
    serves w w'
| serves_handoff c rest r queue w' :
    _lock w = (c, Release) :: rest ->
    waiting (sem w) = r :: queue ->
    sem w' = with_waiting queue (sem w) ->
    _lock w' = rest ->
    next_call w' = next_call w ->
    completed w' = completed w ++ [(r, FromQueue)] ->
    rejected w' = rejected w ->
    held w' = false ->
    serves w w'
| serves_increment c rest w' :
    _lock w = (c, Release) :: rest ->
    waiting (sem w) = [] ->
    lt (_permits (sem w)) (_maxPermits (sem w)) = true ->
    sem w' = with_permits (inc (_permits (sem w))) (sem w) ->
    _lock w' = rest ->
    next_call w' = next_call w ->
    completed w' = completed w ->
    rejected w' = rejected w ->
    held w' = false ->
    serves w w'
| serves_saturated c rest w' :
    _lock w = (c, Release) :: rest ->
    waiting (sem w) = [] ->
    lt (_permits (sem w)) (_maxPermits (sem w)) = false ->
    sem w' = sem w ->
    _lock w' = rest ->
    next_call w' = next_call w ->
    completed w' = completed w ->
    rejected w' = rejected w ->
    held w' = false ->
    serves w w'.

End Sched.
Import Sched.

(* ------------------------------------------------------------------ *)
(** ** The invariants *)

(** With a finite integer capacity [N]: the counter is a binary64 integer
    between 0 and [N], the capacity is [N], and the counter is 0 while a
    caller is queued. *)
Definition counted (N : Z) (s : Semaphore) : Prop :=
  exists p : Z,
    _permits s = int p
    /\ (0 <= p <= N)%Z
    /\ nearest p = p
    /\ _maxPermits s = int N
    /\ (waiting s <> [] -> p = 0%Z).

(** With any capacity: no permit is idle while a caller is queued. *)
Definition no_idle_permit (s : Semaphore) : Prop :=
  waiting s <> [] -> gt (_permits s) zero = false.

(** The calls in the order they are served: the acquires that returned,
    then the queue, then the calls of either kind not yet served. *)
Definition timeline (w : World) : list callid :=
  order (completed w) ++ waiting (sem w) ++ chain_ids w.

Definition fifo (w : World) : Prop :=
  StronglySorted Nat.lt (timeline w)
  /\ Forall (fun i => i < next_call w) (timeline w).

(** At rest: nobody queued, [p] permits out of [n]. *)
Definition at_rest (p n : Z) (s : Semaphore) : Prop :=
  waiting s = []
  /\ _permits s = of_Z p
  /\ _maxPermits s = of_Z n.

(** Nothing has thrown. *)
Definition quiet (w : World) : Prop := rejected w = [].

(* ------------------------------------------------------------------ *)
(** ** Concrete instances and schedules *)

Module Demo.

(** [new Semaphore(n)] for an integer [n >= 0]. *)
Definition fresh (n : Z) : World :=
  boot (mkSemaphore (of_Z n) [] (of_Z n) false EmptyString) [].

(** Three acquires issued at once, then served, on capacity 2: the
    third one queues. *)
Definition three_acquires : list event :=
  [Call Acquire; Call Acquire; Call Acquire; Serve; Serve; Serve].

Definition contended : World := run three_acquires (fresh 2).

(** Two acquires issued together and served, then two awaited
    releases. *)
Definition two_in_two_out : list event :=
  [Call Acquire; Call Acquire; Serve; Serve;
   Call Release; Serve; Call Release; Serve].

(** One awaited acquire, one awaited release. *)
Definition one_in_one_out : list event :=
  [Call Acquire; Serve; Call Release; Serve].

(** Capacity 2, both permits taken, then [p1], [p2], [p3] queued. *)
Definition five_acquires : list event :=
  [Call Acquire; Serve; Call Acquire; Serve; Call Acquire; Serve;
   Call Acquire; Serve; Call Acquire; Serve].

Definition three_queued : World := run five_acquires (fresh 2).

(** The same with a release issued and not yet served. *)
Definition release_due : World := call Release three_queued.

(** [new Semaphore(1.5)] and two acquires. *)
Definition fractional : World :=
  boot (mkSemaphore (Fin (3 # 2)) [] (Fin (3 # 2)) false EmptyString) [].

Definition fractional_twice : World := repeat_op 2 Acquire fractional.

End Demo.

(* ------------------------------------------------------------------ *)
(** ** Schedules seen from outside: what was served, what was logged *)

(** The calls that take their turn along a schedule, in that order. *)
Fixpoint served_by (es : list event) (w : World) : list (callid * op) :=
  match es with
  | [] => []
  | Call o :: es' => served_by es' (call o w)
  | Serve :: es' =>
      (if held w then []
       else match _lock w with
            | [] => []
            | co :: _ => [co]
            end)
      ++ served_by es' (serve w)
  end.

Definition is_release (co : callid * op) : bool :=
  match snd co with
  | Release => true
  | Acquire => false
  end.

Definition is_acquire (co : callid * op) : bool :=
  match snd co with
  | Acquire => true
  | Release => false
  end.

(** How many releases a list of calls holds, and which acquires. *)
Definition releases_of (l : list (callid * op)) : nat :=
  List.length (filter is_release l).

Definition acquires_of (l : list (callid * op)) : list callid :=
  map fst (filter is_acquire l).

(** The object and the world with the two diagnostic options and the
    console blanked. *)
Definition erase (s : Semaphore) : Semaphore :=
  mkSemaphore (_permits s) (waiting s) (_maxPermits s) false EmptyString.

Definition erase_world (w : World) : World :=
  mkWorld (erase (sem w)) (_lock w) (held w) (next_call w)
          (completed w) (rejected w) [].

(** Does a trace hold a [console.warn]? *)
Definition warns (t : list action) : bool :=
  existsb (fun a => match a with
                    | ConsoleWarn _ => true
                    | _ => false
                    end) t.

(** With a finite capacity [q]: the counter is a binary64 value between -1
    and [b], where [b] is one step up from [q]. *)
Definition ranged (q b : Q) (s : Semaphore) : Prop :=
  exists x : Q,
    _permits s = Fin x
    /\ _maxPermits s = Fin q
    /\ round64 x = Fin x
    /\ (-1 <= x)%Q
    /\ (x <= b)%Q.

(** [j] awaited releases. *)
Definition awaited_releases (j : nat) (w : World) : World :=
  repeat_op j Release w.

Module More.

(** [new Semaphore(2, { debug: true, name: 'R' })]. *)
Definition verbose_opts : SemaphoreOpts := mkOpts (Some true) (Some "R"%string).

Definition verbose : World :=
  boot (mkSemaphore (of_Z 2) [] (of_Z 2) true "R"%string)
       [ConsoleLog (MsgInitialized (of_Z 2) "R"%string)].

(** Two acquires, a release, an acquire, issued together, then served. *)
Definition mixed : list event :=
  [Call Acquire; Call Acquire; Call Release; Call Acquire;
   Serve; Serve; Serve; Serve].

(** Four acquires issued together and served. *)
Definition four_acquires : list event :=
  [Call Acquire; Call Acquire; Call Acquire; Call Acquire;
   Serve; Serve; Serve; Serve].

(** [new Semaphore(2.5)], [new Semaphore(NaN)], [new Semaphore(Infinity)]. *)
Definition two_and_a_half : World :=
  boot (mkSemaphore (Fin (5 # 2)) [] (Fin (5 # 2)) false EmptyString) [].

(** [new Semaphore(0.1)]; an acquire and two releases. *)
Definition a_tenth : World :=
  boot (mkSemaphore (round64 (1 # 10)) [] (round64 (1 # 10)) false EmptyString)
       [].

Definition in_out_out : list event :=
  [Call Acquire; Serve; Call Release; Serve; Call Release; Serve].

(** [new Semaphore(1e-20)]. *)
Definition tiny : World :=
  boot (mkSemaphore (round64 (1 # 10 ^ 20)) [] (round64 (1 # 10 ^ 20)) false
          EmptyString) [].

Definition not_a_number : World :=
  boot (mkSemaphore NaN [] NaN false EmptyString) [].

Definition unbounded : World :=
  boot (mkSemaphore PosInf [] PosInf false EmptyString) [].

End More.

(** Evaluate a method on an object given field by field, leaving the
    comparisons and steps on numbers folded. *)
Ltac evaluate :=
  cbv - [lt inc dec zero of_Z Qlt_le_dec Qplus Qminus inject_Z].

(** Settle an equation between two turns by taking the world apart down
    to the fields the methods branch on. *)
Ltac by_cases w :=
  destruct w as [[p q m d nm] l [|] nc comp rej con];
  [reflexivity |];
  destruct l as [| [c [|]] rest];
  [ reflexivity
  | destruct (lt zero p) eqn:Hcmp; destruct d;
    evaluate; rewrite ?Hcmp; evaluate; reflexivity
  | destruct q as [| r queue];
    [ destruct (lt p m) eqn:Hcmp; destruct d;
      evaluate; rewrite ?Hcmp; evaluate; reflexivity
    | destruct d; evaluate; reflexivity ] ].

(** Scenario of the documentation (capacity 2): two acquires are granted,
    the third queues; one release hands over to it, two more refill. *)
Example scenario_capacity_2 :
  match new_world (of_Z 2%Z) no_opts with
  | Normal w0 =>
      let w3 := repeat_op 3 Acquire w0 in
      let w4 := perform Release w3 in
      let w6 := repeat_op 2 Release w4 in
      (_permits (sem w3), waiting (sem w3), completed w3) =
        (Fin (0 # 1), [2], [(0, Immediate); (1, Immediate)])
      /\ (_permits (sem w4), waiting (sem w4), order (completed w4)) =
           (Fin (0 # 1), [], [0; 1; 2])
      /\ (_permits (sem w6), waiting (sem w6)) = (Fin (2 # 1), [])
  | Throw _ => False
  end.
Proof. vm_compute. repeat split. Qed.

(* ------------------------------------------------------------------ *)
(** ** Arithmetic on integer-valued numbers *)

Section Rounding.

Local Open Scope Z_scope.

Lemma rne_bounds (a b : Z) : 0 < b -> a / b <= rne a b <= a / b + 1.
Proof.
  intros Hb. unfold rne.
  destruct (2 * (a mod b) <? b); [lia |].
  destruct (b <? 2 * (a mod b)); [lia |].
  destruct (Z.even (a / b)); lia.
Qed.

Lemma rne_exact (k b : Z) : 0 < b -> rne (k * b) b = k.
Proof.
  intros Hb. unfold rne.
  rewrite Z.div_mul by lia. rewrite Z.mod_mul by lia.
  destruct (2 * 0 <? b) eqn:E; [reflexivity |].
  apply Z.ltb_ge in E. lia.
Qed.

Lemma rne_mono (a a' b : Z) : 0 < b -> a <= a' -> rne a b <= rne a' b.
Proof.
  intros Hb Ha.
  pose proof (Z.div_le_mono a a' b Hb Ha) as Hq.
  destruct (Z.eq_dec (a / b) (a' / b)) as [E | E].
  - pose proof (Z.div_mod a b ltac:(lia)) as H1.
    pose proof (Z.div_mod a' b ltac:(lia)) as H2.
    assert (Hr : a mod b <= a' mod b) by nia.
    unfold rne. rewrite <- E.
    destruct (2 * (a mod b) <? b) eqn:E1;
      destruct (2 * (a' mod b) <? b) eqn:E1';
      destruct (b <? 2 * (a mod b)) eqn:E2;
      destruct (b <? 2 * (a' mod b)) eqn:E2';
      destruct (Z.even (a / b));
      try lia;
      rewrite ?Z.ltb_lt, ?Z.ltb_ge in *; lia.
  - pose proof (rne_bounds a Hb). pose proof (rne_bounds a' Hb). lia.
Qed.

Lemma grid_pos (z : Z) : 0 < grid z.
Proof. unfold grid. apply Z.pow_pos_nonneg; lia. Qed.

Lemma grid_small (z : Z) : z < 2 ^ 53 -> grid z = 1.
Proof.
  intros Hz. unfold grid.
  assert (Z.log2 z <= 52).
  { destruct (Z.le_gt_cases z 0) as [H | H].
    - rewrite Z.log2_nonpos by lia. lia.
    - assert (Z.log2 z < 53); [| lia].
      apply Z.log2_lt_pow2; lia. }
  replace (Z.max 0 (Z.log2 z - 52)) with 0 by lia. reflexivity.
Qed.

Lemma grid_large (z : Z) :
  2 ^ 53 <= z ->
  exists t, 1 <= t /\ grid z = 2 ^ t /\ Z.log2 z = 52 + t
            /\ 2 ^ 52 * 2 ^ t <= z < 2 ^ 53 * 2 ^ t.
Proof.
  intros Hz.
  assert (H53 : 53 <= Z.log2 z).
  { apply Z.log2_le_pow2; lia. }
  exists (Z.log2 z - 52). unfold grid.
  replace (Z.max 0 (Z.log2 z - 52)) with (Z.log2 z - 52) by lia.
  repeat split; try lia.
  - rewrite <- Z.pow_add_r by lia.
    replace (52 + (Z.log2 z - 52)) with (Z.log2 z) by lia.
    apply Z.log2_spec. lia.
  - rewrite <- Z.pow_add_r by lia.
    replace (53 + (Z.log2 z - 52)) with (Z.succ (Z.log2 z)) by lia.
    apply Z.log2_spec. lia.
Qed.

Lemma nearest_small (z : Z) : 0 <= z <= 2 ^ 53 -> nearest z = z.
Proof.
  intros Hz. destruct (Z.eq_dec z (2 ^ 53)) as [-> | Hne].
  - vm_compute. reflexivity.
  - unfold nearest. rewrite grid_small by lia.
    rewrite <- (Z.mul_1_r z) at 1. rewrite rne_exact; lia.
Qed.

Lemma nearest_nonneg (z : Z) : 0 <= z -> 0 <= nearest z.
Proof.
  intros Hz. unfold nearest.
  pose proof (grid_pos z) as Hg.
  pose proof (rne_bounds z Hg) as Hb.
  assert (0 <= z / grid z) by (apply Z.div_pos; lia).
  nia.
Qed.

Lemma nearest_range (z : Z) (t : Z) :
  1 <= t -> grid z = 2 ^ t -> 2 ^ 52 * 2 ^ t <= z < 2 ^ 53 * 2 ^ t ->
  2 ^ 52 <= rne z (2 ^ t) <= 2 ^ 53.
Proof.
  intros Ht Hg Hz.
  assert (Hp : 0 < 2 ^ t) by (apply Z.pow_pos_nonneg; lia).
  pose proof (rne_bounds z Hp) as Hb.
  assert (2 ^ 52 <= z / 2 ^ t).
  { apply Z.div_le_lower_bound; lia. }
  assert (z / 2 ^ t < 2 ^ 53).
  { apply Z.div_lt_upper_bound; lia. }
  lia.
Qed.

Lemma nearest_idem (z : Z) : 0 <= z -> nearest (nearest z) = nearest z.
Proof.
  intros Hz. destruct (Z.lt_ge_cases z (2 ^ 53)) as [Hs | Hl].
  - rewrite !(@nearest_small z) by lia. reflexivity.
  - destruct (grid_large Hl) as (t & Ht & Hg & Hlog & Hr).
    pose proof (nearest_range Ht Hg Hr) as Hk.
    assert (Hp : 0 < 2 ^ t) by (apply Z.pow_pos_nonneg; lia).
    assert (Hn : nearest z = rne z (2 ^ t) * 2 ^ t)
      by (unfold nearest; rewrite Hg; reflexivity).
    rewrite Hn.
    set (k := rne z (2 ^ t)) in *.
    destruct (Z.eq_dec k (2 ^ 53)) as [E | E].
    + assert (Hlog' : Z.log2 (k * 2 ^ t) = 53 + t).
      { apply Z.log2_unique; [lia |].
        rewrite E, <- !Z.pow_add_r by lia.
        replace (Z.succ (53 + t)) with (53 + t + 1) by lia.
        rewrite (Z.pow_add_r 2 (53 + t) 1) by lia. lia. }
      unfold nearest, grid. rewrite Hlog'.
      replace (Z.max 0 (53 + t - 52)) with (t + 1) by lia.
      rewrite E.
      replace (2 ^ 53 * 2 ^ t) with (2 ^ 52 * 2 ^ (t + 1)).
      * rewrite rne_exact; [reflexivity | apply Z.pow_pos_nonneg; lia].
      * rewrite <- !Z.pow_add_r by lia. f_equal. lia.
    + assert (Hlog' : Z.log2 (k * 2 ^ t) = 52 + t).
      { apply Z.log2_unique; [lia |].
        replace (Z.succ (52 + t)) with (53 + t) by lia.
        rewrite !Z.pow_add_r by lia. nia. }
      unfold nearest, grid. rewrite Hlog'.
      replace (Z.max 0 (52 + t - 52)) with t by lia.
      rewrite rne_exact; [reflexivity | exact Hp].
Qed.

Lemma nearest_mono (z1 z2 : Z) :
  0 <= z1 -> z1 <= z2 -> nearest z1 <= nearest z2.
Proof.
  intros H1 H12.
  destruct (Z.lt_ge_cases z2 (2 ^ 53)) as [Hs | Hl].
  - rewrite !nearest_small by lia. exact H12.
  - destruct (grid_large Hl) as (t2 & Ht2 & Hg2 & Hlog2 & Hr2).
    pose proof (nearest_range Ht2 Hg2 Hr2) as Hk2.
    assert (Hp2 : 0 < 2 ^ t2) by (apply Z.pow_pos_nonneg; lia).
    destruct (Z.lt_ge_cases z1 (2 ^ 53)) as [Hs1 | Hl1].
    + rewrite (nearest_small (z := z1)) by lia.
      unfold nearest. rewrite Hg2.
      assert (2 ^ 53 <= 2 ^ 52 * 2 ^ t2).
      { replace (2 ^ 53) with (2 ^ 52 * 2 ^ 1) by reflexivity.
        apply Z.mul_le_mono_nonneg_l; [lia |].
        apply Z.pow_le_mono_r; lia. }
      nia.
    + destruct (grid_large Hl1) as (t1 & Ht1 & Hg1 & Hlog1 & Hr1).
      pose proof (nearest_range Ht1 Hg1 Hr1) as Hk1.
      assert (Hp1 : 0 < 2 ^ t1) by (apply Z.pow_pos_nonneg; lia).
      assert (Hle : t1 <= t2).
      { pose proof (Z.log2_le_mono z1 z2 H12). lia. }
      unfold nearest. rewrite Hg1, Hg2.
      destruct (Z.eq_dec t1 t2) as [E | E].
      * subst t2. apply Z.mul_le_mono_nonneg_r; [lia |].
        apply rne_mono; assumption.
      * assert (2 ^ 53 * 2 ^ t1 <= 2 ^ 52 * 2 ^ t2).
        { rewrite <- !Z.pow_add_r by lia.
          apply Z.pow_le_mono_r; lia. }
        nia.
Qed.

Lemma Qred_int (a : Z) : Qred (inject_Z a) = inject_Z a.
Proof.
  unfold Qred, inject_Z.
  pose proof (Z.ggcd_gcd a 1) as Hg.
  pose proof (Z.ggcd_correct_divisors a 1) as Hd.
  destruct (Z.ggcd a 1) as (g, (aa, bb)). simpl in *.
  rewrite Z.gcd_1_r in Hg. subst g. destruct Hd as [Ha Hb].
  assert (Eb : bb = 1) by lia. assert (Ea : aa = a) by lia.
  rewrite Eb, Ea. reflexivity.
Qed.

Lemma round_pos_int (a : Z) :
  0 < a ->
  round_pos a 1 =
    if top <=? nearest a then None else Some (inject_Z (nearest a)).
Proof.
  intros Ha.
  assert (Hlog : 2 ^ Z.log2 a <= a) by (apply Z.log2_spec; exact Ha).
  pose proof (Z.log2_nonneg a) as Hnn.
  assert (He : ilog2 a 1 = Z.log2 a).
  { unfold ilog2, scale. change (Z.log2 1) with 0. rewrite Z.sub_0_r.
    destruct (0 <=? Z.log2 a) eqn:E; [| apply Z.leb_gt in E; lia].
    rewrite Z.mul_1_l.
    destruct (2 ^ Z.log2 a <=? a) eqn:E'; [reflexivity |].
    apply Z.leb_gt in E'. lia. }
  unfold round_pos. rewrite He.
  replace (Z.max (Z.log2 a) (-1022)) with (Z.log2 a) by lia.
  unfold scale.
  destruct (0 <=? Z.log2 a - 52) eqn:Et.
  - apply Z.leb_le in Et. rewrite Z.mul_1_l.
    unfold nearest, grid, top.
    replace (Z.max 0 (Z.log2 a - 52)) with (Z.log2 a - 52) by lia.
    reflexivity.
  - apply Z.leb_gt in Et.
    assert (Hs : a < 2 ^ 53).
    { apply Z.log2_lt_pow2; lia. }
    rewrite nearest_small by lia.
    assert (Htop : (top <=? a) = false).
    { apply Z.leb_gt. unfold top.
      assert (2 ^ 53 <= 2 ^ 1024) by (apply Z.pow_le_mono_r; lia). lia. }
    rewrite Htop. f_equal.
    set (s := - (Z.log2 a - 52)).
    assert (Hp : 0 < 2 ^ s) by (apply Z.pow_pos_nonneg; unfold s; lia).
    rewrite <- (Z.mul_1_r (a * 2 ^ s)) at 1. rewrite rne_exact by lia.
    rewrite <- (Qred_int a). apply Qred_complete.
    unfold Qeq, inject_Z. simpl. rewrite Z2Pos.id by exact Hp. lia.
Qed.

Lemma round64_int (z : Z) :
  0 <= z ->
  round64 (inject_Z z) =
    if top <=? nearest z then PosInf else int (nearest z).
Proof.
  intros Hz. destruct z as [| p | p]; [| | lia].
  - reflexivity.
  - unfold round64, inject_Z. cbn [Qnum Qden].
    rewrite round_pos_int by lia.
    destruct (top <=? nearest (Z.pos p)); reflexivity.
Qed.

Lemma round64_den_1 (x : Q) :
  Qden x = 1%positive -> round64 x = round64 (inject_Z (Qnum x)).
Proof. destruct x as [a b]. simpl. intros ->. reflexivity. Qed.

(** *** Rounding any fraction: order and fixed points *)

(** [scale] without the case split. *)
Lemma scale_eq (a b t : Z) :
  scale a b t = (a * 2 ^ Z.max 0 (- t), b * 2 ^ Z.max 0 t).
Proof.
  unfold scale. destruct (0 <=? t) eqn:E.
  - apply Z.leb_le in E.
    replace (Z.max 0 (- t)) with 0 by lia.
    replace (Z.max 0 t) with t by lia.
    rewrite Z.pow_0_r, Z.mul_1_r. reflexivity.
  - apply Z.leb_gt in E.
    replace (Z.max 0 (- t)) with (- t) by lia.
    replace (Z.max 0 t) with 0 by lia.
    rewrite Z.pow_0_r, Z.mul_1_r. reflexivity.
Qed.

Lemma up_pos (t : Z) : 0 < 2 ^ Z.max 0 t.
Proof. apply Z.pow_pos_nonneg; lia. Qed.

Lemma up_shift (t1 t2 : Z) :
  t1 <= t2 ->
  2 ^ Z.max 0 (- t1) * 2 ^ Z.max 0 t2
  = 2 ^ (t2 - t1) * (2 ^ Z.max 0 (- t2) * 2 ^ Z.max 0 t1).
Proof.
  intros H. rewrite <- !Z.pow_add_r by lia. f_equal; lia.
Qed.

(** [2^e <= a/b] and [a/b < 2^e], on fractions. *)
Lemma above_down (a b e e' : Z) :
  0 < a -> 0 < b -> e <= e' ->
  b * 2 ^ Z.max 0 e' <= a * 2 ^ Z.max 0 (- e') ->
  b * 2 ^ Z.max 0 e <= a * 2 ^ Z.max 0 (- e).
Proof.
  intros Ha Hb He H.
  pose proof (up_shift He) as Hs.
  pose proof (up_pos e) as P1. pose proof (up_pos (- e)) as P2.
  pose proof (up_pos e') as P3. pose proof (up_pos (- e')) as P4.
  assert (Hd : 1 <= 2 ^ (e' - e)).
  { apply (Z.pow_le_mono_r 2 0 (e' - e)); lia. }
  set (u := 2 ^ Z.max 0 e) in *. set (v := 2 ^ Z.max 0 (- e)) in *.
  set (u' := 2 ^ Z.max 0 e') in *. set (v' := 2 ^ Z.max 0 (- e')) in *.
  set (d := 2 ^ (e' - e)) in *.
  apply (Z.mul_le_mono_pos_r _ _ u'); [exact P3 |].
  replace (a * v * u') with (a * (v * u')) by ring. rewrite Hs.
  assert (b * u' * u <= a * v' * u) by (apply Z.mul_le_mono_nonneg_r; lia).
  assert (a * v' * u <= d * (a * v' * u)).
  { assert (0 <= a * v' * u) by (apply Z.mul_nonneg_nonneg; nia). nia. }
  replace (b * u * u') with (b * u' * u) by ring.
  replace (a * (d * (v' * u))) with (d * (a * v' * u)) by ring.
  lia.
Qed.

Lemma below_up (a b e e' : Z) :
  0 < a -> 0 < b -> e <= e' ->
  a * 2 ^ Z.max 0 (- e) < b * 2 ^ Z.max 0 e ->
  a * 2 ^ Z.max 0 (- e') < b * 2 ^ Z.max 0 e'.
Proof.
  intros Ha Hb He H.
  destruct (Z.lt_ge_cases (a * 2 ^ Z.max 0 (- e')) (b * 2 ^ Z.max 0 e'))
    as [L | G]; [exact L |].
  pose proof (above_down Ha Hb He G). lia.
Qed.

(** [2^(t+d) <= a/b] read on the fraction scaled by [t]. *)
Lemma scaled_above (a b t d : Z) :
  0 < a -> 0 < b -> 0 <= d ->
  b * 2 ^ Z.max 0 (t + d) <= a * 2 ^ Z.max 0 (- (t + d)) ->
  2 ^ d * (b * 2 ^ Z.max 0 t) <= a * 2 ^ Z.max 0 (- t).
Proof.
  intros Ha Hb Hd H.
  assert (Hle : t <= t + d) by lia.
  pose proof (up_shift Hle) as Hs.
  replace (t + d - t) with d in Hs by lia.
  pose proof (up_pos t) as P1. pose proof (up_pos (- t)) as P2.
  pose proof (up_pos (t + d)) as P3. pose proof (up_pos (- (t + d))) as P4.
  assert (Hp : 0 < 2 ^ d) by (apply Z.pow_pos_nonneg; lia).
  set (u := 2 ^ Z.max 0 t) in *. set (v := 2 ^ Z.max 0 (- t)) in *.
  set (u' := 2 ^ Z.max 0 (t + d)) in *.
  set (v' := 2 ^ Z.max 0 (- (t + d))) in *.
  set (p := 2 ^ d) in *.
  apply (Z.mul_le_mono_pos_r _ _ u'); [exact P3 |].
  replace (a * v * u') with (a * (v * u')) by ring. rewrite Hs.
  replace (p * (b * u) * u') with (p * u * (b * u')) by ring.
  replace (a * (p * (v' * u))) with (p * u * (a * v')) by ring.
  apply Z.mul_le_mono_nonneg_l; [nia | exact H].
Qed.

Lemma scaled_below (a b t d : Z) :
  0 < a -> 0 < b -> 0 <= d ->
  a * 2 ^ Z.max 0 (- (t + d)) < b * 2 ^ Z.max 0 (t + d) ->
  a * 2 ^ Z.max 0 (- t) < 2 ^ d * (b * 2 ^ Z.max 0 t).
Proof.
  intros Ha Hb Hd H.
  assert (Hle : t <= t + d) by lia.
  pose proof (up_shift Hle) as Hs.
  replace (t + d - t) with d in Hs by lia.
  pose proof (up_pos t) as P1. pose proof (up_pos (- t)) as P2.
  pose proof (up_pos (t + d)) as P3. pose proof (up_pos (- (t + d))) as P4.
  assert (Hp : 0 < 2 ^ d) by (apply Z.pow_pos_nonneg; lia).
  set (u := 2 ^ Z.max 0 t) in *. set (v := 2 ^ Z.max 0 (- t)) in *.
  set (u' := 2 ^ Z.max 0 (t + d)) in *.
  set (v' := 2 ^ Z.max 0 (- (t + d))) in *.
  set (p := 2 ^ d) in *.
  apply (Z.mul_lt_mono_pos_r u'); [exact P3 |].
  replace (a * v * u') with (a * (v * u')) by ring. rewrite Hs.
  replace (p * (b * u) * u') with (p * u * (b * u')) by ring.
  replace (a * (p * (v' * u))) with (p * u * (a * v')) by ring.
  apply Z.mul_lt_mono_pos_l; [nia | exact H].
Qed.

Lemma ilog2_spec (a b : Z) :
  0 < a -> 0 < b ->
  b * 2 ^ Z.max 0 (ilog2 a b) <= a * 2 ^ Z.max 0 (- ilog2 a b)
  /\ a * 2 ^ Z.max 0 (- (ilog2 a b + 1)) < b * 2 ^ Z.max 0 (ilog2 a b + 1).
Proof.
  intros Ha Hb.
  destruct (Z.log2_spec a Ha) as [La Ua].
  destruct (Z.log2_spec b Hb) as [Lb Ub].
  pose proof (Z.log2_nonneg a) as Na. pose proof (Z.log2_nonneg b) as Nb.
  set (la := Z.log2 a) in *. set (lb := Z.log2 b) in *.
  assert (Hup : forall e, la + 1 - lb <= e ->
                a * 2 ^ Z.max 0 (- e) < b * 2 ^ Z.max 0 e).
  { intros e He.
    pose proof (up_pos e). pose proof (up_pos (- e)).
    assert (2 ^ Z.succ la * 2 ^ Z.max 0 (- e) <= 2 ^ lb * 2 ^ Z.max 0 e).
    { rewrite <- !Z.pow_add_r by lia. apply Z.pow_le_mono_r; lia. }
    assert (a * 2 ^ Z.max 0 (- e) < 2 ^ Z.succ la * 2 ^ Z.max 0 (- e))
      by (apply Z.mul_lt_mono_pos_r; lia).
    assert (2 ^ lb * 2 ^ Z.max 0 e <= b * 2 ^ Z.max 0 e)
      by (apply Z.mul_le_mono_nonneg_r; lia).
    lia. }
  assert (Hlow : forall e, e <= la - lb - 1 ->
                 b * 2 ^ Z.max 0 e <= a * 2 ^ Z.max 0 (- e)).
  { intros e He.
    pose proof (up_pos e). pose proof (up_pos (- e)).
    assert (2 ^ Z.succ lb * 2 ^ Z.max 0 e <= 2 ^ la * 2 ^ Z.max 0 (- e)).
    { rewrite <- !Z.pow_add_r by lia. apply Z.pow_le_mono_r; lia. }
    assert (b * 2 ^ Z.max 0 e < 2 ^ Z.succ lb * 2 ^ Z.max 0 e)
      by (apply Z.mul_lt_mono_pos_r; lia).
    assert (2 ^ la * 2 ^ Z.max 0 (- e) <= a * 2 ^ Z.max 0 (- e))
      by (apply Z.mul_le_mono_nonneg_r; lia).
    lia. }
  unfold ilog2. fold la lb. rewrite scale_eq.
  destruct (b * 2 ^ Z.max 0 (la - lb) <=? a * 2 ^ Z.max 0 (- (la - lb)))
    eqn:E.
  - apply Z.leb_le in E. split; [exact E | apply Hup; lia].
  - apply Z.leb_gt in E. split; [apply Hlow; lia |].
    replace (la - lb - 1 + 1) with (la - lb) by lia. exact E.
Qed.

Lemma ilog2_mono (a1 b1 a2 b2 : Z) :
  0 < a1 -> 0 < b1 -> 0 < a2 -> 0 < b2 ->
  a1 * b2 <= a2 * b1 -> ilog2 a1 b1 <= ilog2 a2 b2.
Proof.
  intros Ha1 Hb1 Ha2 Hb2 H.
  destruct (ilog2_spec Ha1 Hb1) as [L1 _].
  destruct (ilog2_spec Ha2 Hb2) as [_ U2].
  destruct (Z.le_gt_cases (ilog2 a1 b1) (ilog2 a2 b2)) as [Hle | Hgt];
    [exact Hle | exfalso].
  assert (He : ilog2 a2 b2 + 1 <= ilog2 a1 b1) by lia.
  pose proof (above_down Ha1 Hb1 He L1) as L.
  pose proof (up_pos (ilog2 a2 b2 + 1)) as P1.
  pose proof (up_pos (- (ilog2 a2 b2 + 1))) as P2.
  set (u := 2 ^ Z.max 0 (ilog2 a2 b2 + 1)) in *.
  set (v := 2 ^ Z.max 0 (- (ilog2 a2 b2 + 1))) in *.
  assert (b1 * b2 * u <= a1 * b2 * v).
  { replace (b1 * b2 * u) with (b2 * (b1 * u)) by ring.
    replace (a1 * b2 * v) with (b2 * (a1 * v)) by ring.
    apply Z.mul_le_mono_nonneg_l; lia. }
  assert (a1 * b2 * v <= a2 * b1 * v)
    by (apply Z.mul_le_mono_nonneg_r; lia).
  assert (a2 * b1 * v < b1 * b2 * u).
  { replace (a2 * b1 * v) with (b1 * (a2 * v)) by ring.
    replace (b1 * b2 * u) with (b1 * (b2 * u)) by ring.
    apply Z.mul_lt_mono_pos_l; lia. }
  lia.
Qed.

Lemma rne_scale (a b c : Z) : 0 < b -> 0 < c -> rne (a * c) (b * c) = rne a b.
Proof.
  intros Hb Hc. unfold rne.
  rewrite Z.div_mul_cancel_r by lia.
  rewrite Z.mul_mod_distr_r by lia.
  pose proof (Z.mod_pos_bound a b Hb) as Hm.
  set (r := a mod b) in *.
  assert (E1 : (2 * (r * c) <? b * c) = (2 * r <? b)).
  { destruct (2 * r <? b) eqn:E.
    - apply Z.ltb_lt in E. apply Z.ltb_lt. nia.
    - apply Z.ltb_ge in E. apply Z.ltb_ge. nia. }
  assert (E2 : (b * c <? 2 * (r * c)) = (b <? 2 * r)).
  { destruct (b <? 2 * r) eqn:E.
    - apply Z.ltb_lt in E. apply Z.ltb_lt. nia.
    - apply Z.ltb_ge in E. apply Z.ltb_ge. nia. }
  rewrite E1, E2. reflexivity.
Qed.

Lemma rne_frac_mono (a1 b1 a2 b2 : Z) :
  0 < b1 -> 0 < b2 -> a1 * b2 <= a2 * b1 -> rne a1 b1 <= rne a2 b2.
Proof.
  intros H1 H2 H.
  rewrite <- (rne_scale a1 H1 H2), <- (rne_scale a2 H2 H1).
  rewrite (Z.mul_comm b2 b1). apply rne_mono; [lia | exact H].
Qed.

Lemma round_pos_eq (a b : Z) :
  round_pos a b = encode (signif a b) (expo a b).
Proof.
  unfold round_pos, signif, expo. rewrite scale_eq. reflexivity.
Qed.

Lemma signif_le (a b : Z) : 0 < a -> 0 < b -> 0 <= signif a b <= 2 ^ 53.
Proof.
  intros Ha Hb. unfold signif.
  set (t := expo a b).
  pose proof (up_pos t) as P1. pose proof (up_pos (- t)) as P2.
  assert (HB : 0 < b * 2 ^ Z.max 0 t) by nia.
  split.
  - pose proof (rne_bounds (a * 2 ^ Z.max 0 (- t)) HB) as Hr.
    assert (0 <= a * 2 ^ Z.max 0 (- t) / (b * 2 ^ Z.max 0 t))
      by (apply Z.div_pos; nia).
    lia.
  - destruct (ilog2_spec Ha Hb) as [_ U].
    assert (He : ilog2 a b + 1 <= t + 53) by (unfold t, expo; lia).
    pose proof (below_up Ha Hb He U) as U'.
    pose proof (@scaled_below a b t 53 Ha Hb ltac:(lia) U') as Hs.
    rewrite <- (@rne_exact (2 ^ 53) (b * 2 ^ Z.max 0 t) HB).
    apply rne_mono; [exact HB | lia].
Qed.

Lemma signif_ge (a b : Z) :
  0 < a -> 0 < b -> -1022 <= ilog2 a b -> 2 ^ 52 <= signif a b.
Proof.
  intros Ha Hb Hn. unfold signif.
  set (t := expo a b).
  pose proof (up_pos t) as P1. pose proof (up_pos (- t)) as P2.
  assert (HB : 0 < b * 2 ^ Z.max 0 t) by nia.
  destruct (ilog2_spec Ha Hb) as [L _].
  assert (He : ilog2 a b = t + 52) by (unfold t, expo; lia).
  rewrite He in L.
  pose proof (@scaled_above a b t 52 Ha Hb ltac:(lia) L) as Hs.
  rewrite <- (@rne_exact (2 ^ 52) (b * 2 ^ Z.max 0 t) HB).
  apply rne_mono; [exact HB | lia].
Qed.

Lemma pow_split (t m : Z) : 0 <= m <= t -> 2 ^ t = 2 ^ (t - m) * 2 ^ m.
Proof.
  intros H. rewrite <- Z.pow_add_r by lia. f_equal; lia.
Qed.

Lemma encode_le (k1 t1 k2 t2 : Z) :
  0 <= k1 -> 0 <= k2 <= 2 ^ 53 ->
  k1 * 2 ^ (t1 - Z.min t1 t2) <= k2 * 2 ^ (t2 - Z.min t1 t2) ->
  match encode k1 t1, encode k2 t2 with
  | _, None => True
  | None, Some _ => False
  | Some x, Some y => (x <= y)%Q
  end.
Proof.
  intros H1 H2 H. unfold encode.
  destruct (0 <=? t1) eqn:E1; destruct (0 <=? t2) eqn:E2;
    rewrite ?Z.leb_le, ?Z.leb_gt in *.
  - assert (Hv : k1 * 2 ^ t1 <= k2 * 2 ^ t2).
    { set (m := Z.min t1 t2) in *.
      assert (Hm : 0 < 2 ^ m) by (apply Z.pow_pos_nonneg; lia).
      rewrite (@pow_split t1 m), (@pow_split t2 m) by lia.
      rewrite !Z.mul_assoc. apply Z.mul_le_mono_nonneg_r; lia. }
    destruct (2 ^ 1024 <=? k2 * 2 ^ t2) eqn:O2.
    + destruct (2 ^ 1024 <=? k1 * 2 ^ t1); exact I.
    + apply Z.leb_gt in O2.
      destruct (2 ^ 1024 <=? k1 * 2 ^ t1) eqn:O1.
      * apply Z.leb_le in O1. lia.
      * rewrite <- Zle_Qle. exact Hv.
  - (* t1 >= 0 > t2 *)
    replace (Z.min t1 t2) with t2 in H by lia.
    replace (t2 - t2) with 0 in H by lia. rewrite Z.mul_1_r in H.
    assert (Hp : 0 < 2 ^ (- t2)) by (apply Z.pow_pos_nonneg; lia).
    assert (Hs : 2 ^ (t1 - t2) = 2 ^ t1 * 2 ^ (- t2)).
    { rewrite <- Z.pow_add_r by lia. f_equal; lia. }
    assert (Hq : 0 < 2 ^ t1) by (apply Z.pow_pos_nonneg; lia).
    assert (Hv : k1 * 2 ^ t1 <= 2 ^ 53).
    { rewrite Hs in H. nia. }
    assert (Hbig : 2 ^ 53 < 2 ^ 1024) by (apply Z.pow_lt_mono_r; lia).
    destruct (2 ^ 1024 <=? k1 * 2 ^ t1) eqn:O1.
    + apply Z.leb_le in O1. lia.
    + rewrite Qred_correct. unfold Qle, inject_Z. cbn [Qnum Qden].
      rewrite Z2Pos.id by exact Hp. rewrite Hs in H. lia.
  - (* t1 < 0 <= t2 *)
    replace (Z.min t1 t2) with t1 in H by lia.
    replace (t1 - t1) with 0 in H by lia. rewrite Z.mul_1_r in H.
    assert (Hp : 0 < 2 ^ (- t1)) by (apply Z.pow_pos_nonneg; lia).
    assert (Hs : 2 ^ (t2 - t1) = 2 ^ t2 * 2 ^ (- t1)).
    { rewrite <- Z.pow_add_r by lia. f_equal; lia. }
    destruct (2 ^ 1024 <=? k2 * 2 ^ t2); [exact I |].
    rewrite Qred_correct. unfold Qle, inject_Z. cbn [Qnum Qden].
    rewrite Z2Pos.id by exact Hp. rewrite Hs in H. lia.
  - (* both negative *)
    assert (Hp1 : 0 < 2 ^ (- t1)) by (apply Z.pow_pos_nonneg; lia).
    assert (Hp2 : 0 < 2 ^ (- t2)) by (apply Z.pow_pos_nonneg; lia).
    rewrite !Qred_correct. unfold Qle. cbn [Qnum Qden].
    rewrite !Z2Pos.id by assumption.
    set (m := Z.min t1 t2) in *.
    assert (Hc : 0 < 2 ^ (m - t1 - t2)) by (apply Z.pow_pos_nonneg; lia).
    assert (Ha : 2 ^ (- t2) = 2 ^ (t1 - m) * 2 ^ (m - t1 - t2)).
    { rewrite <- Z.pow_add_r by lia. f_equal; lia. }
    assert (Hb : 2 ^ (- t1) = 2 ^ (t2 - m) * 2 ^ (m - t1 - t2)).
    { rewrite <- Z.pow_add_r by lia. f_equal; lia. }
    rewrite Ha, Hb, !Z.mul_assoc.
    apply Z.mul_le_mono_nonneg_r; lia.
Qed.

Lemma round_pos_mono (a1 b1 a2 b2 : Z) :
  0 < a1 -> 0 < b1 -> 0 < a2 -> 0 < b2 ->
  a1 * b2 <= a2 * b1 ->
  match round_pos a1 b1, round_pos a2 b2 with
  | _, None => True
  | None, Some _ => False
  | Some x, Some y => (x <= y)%Q
  end.
Proof.
  intros Ha1 Hb1 Ha2 Hb2 H. rewrite !round_pos_eq.
  pose proof (signif_le Ha1 Hb1) as K1.
  pose proof (signif_le Ha2 Hb2) as K2.
  pose proof (ilog2_mono Ha1 Hb1 Ha2 Hb2 H) as He.
  apply encode_le; [lia | lia |].
  assert (Ht : expo a1 b1 <= expo a2 b2) by (unfold expo; lia).
  destruct (Z.eq_dec (expo a1 b1) (expo a2 b2)) as [E | E].
  - rewrite E. replace (Z.min (expo a2 b2) (expo a2 b2)) with (expo a2 b2)
      by lia.
    replace (expo a2 b2 - expo a2 b2) with 0 by lia.
    rewrite !Z.mul_1_r. unfold signif. rewrite E.
    pose proof (up_pos (expo a2 b2)) as P1.
    pose proof (up_pos (- expo a2 b2)) as P2.
    apply rne_frac_mono; [nia | nia |].
    set (u := 2 ^ Z.max 0 (expo a2 b2)) in *.
    set (v := 2 ^ Z.max 0 (- expo a2 b2)) in *.
    replace (a1 * v * (b2 * u)) with (a1 * b2 * (u * v)) by ring.
    replace (a2 * v * (b1 * u)) with (a2 * b1 * (u * v)) by ring.
    apply Z.mul_le_mono_nonneg_r; nia.
  - replace (Z.min (expo a1 b1) (expo a2 b2)) with (expo a1 b1) by lia.
    replace (expo a1 b1 - expo a1 b1) with 0 by lia. rewrite Z.mul_1_r.
    assert (Hn : -1022 <= ilog2 a2 b2) by (unfold expo in *; lia).
    pose proof (signif_ge Ha2 Hb2 Hn) as G2.
    assert (2 ^ 1 <= 2 ^ (expo a2 b2 - expo a1 b1))
      by (apply Z.pow_le_mono_r; lia).
    change (2 ^ 1) with 2 in *. change (2 ^ 53) with (2 * 2 ^ 52) in *.
    nia.
Qed.

Lemma ilog2_below (a b e : Z) :
  0 < a -> 0 < b ->
  a * 2 ^ Z.max 0 (- e) < b * 2 ^ Z.max 0 e -> ilog2 a b < e.
Proof.
  intros Ha Hb H.
  destruct (ilog2_spec Ha Hb) as [L _].
  destruct (Z.lt_ge_cases (ilog2 a b) e) as [Hlt | Hge]; [exact Hlt |].
  pose proof (above_down Ha Hb Hge L). lia.
Qed.

Lemma ilog2_above (a b e : Z) :
  0 < a -> 0 < b ->
  b * 2 ^ Z.max 0 e <= a * 2 ^ Z.max 0 (- e) -> e <= ilog2 a b.
Proof.
  intros Ha Hb H.
  destruct (ilog2_spec Ha Hb) as [_ U].
  destruct (Z.le_gt_cases e (ilog2 a b)) as [Hle | Hgt]; [exact Hle |].
  assert (He : ilog2 a b + 1 <= e) by lia.
  pose proof (above_down Ha Hb He H). lia.
Qed.

Lemma round_pos_frac (a1 b1 a2 b2 : Z) :
  0 < a1 -> 0 < b1 -> 0 < a2 -> 0 < b2 ->
  a1 * b2 = a2 * b1 -> round_pos a1 b1 = round_pos a2 b2.
Proof.
  intros Ha1 Hb1 Ha2 Hb2 H. rewrite !round_pos_eq.
  assert (He : ilog2 a1 b1 = ilog2 a2 b2).
  { apply Z.le_antisymm; apply ilog2_mono; auto; lia. }
  assert (Ht : expo a1 b1 = expo a2 b2) by (unfold expo; rewrite He; auto).
  assert (Hk : signif a1 b1 = signif a2 b2).
  { unfold signif. rewrite Ht.
    pose proof (up_pos (expo a2 b2)) as P1.
    pose proof (up_pos (- expo a2 b2)) as P2.
    set (u := 2 ^ Z.max 0 (expo a2 b2)) in *.
    set (v := 2 ^ Z.max 0 (- expo a2 b2)) in *.
    assert (E : a1 * v * (b2 * u) = a2 * v * (b1 * u)).
    { replace (a1 * v * (b2 * u)) with (a1 * b2 * (u * v)) by ring.
      replace (a2 * v * (b1 * u)) with (a2 * b1 * (u * v)) by ring.
      rewrite H. reflexivity. }
    apply Z.le_antisymm; apply rne_frac_mono; try nia. }
  rewrite Ht, Hk. reflexivity.
Qed.

Lemma encode_carry (t : Z) :
  -1074 <= t -> encode (2 ^ 52) (t + 1) = encode (2 ^ 53) t.
Proof.
  intros Ht. unfold encode.
  destruct (Z.lt_ge_cases t (-1)) as [Hn | Hp].
  - destruct (0 <=? t + 1) eqn:E1; [apply Z.leb_le in E1; lia |].
    destruct (0 <=? t) eqn:E2; [apply Z.leb_le in E2; lia |].
    f_equal. apply Qred_complete. unfold Qeq. cbn [Qnum Qden].
    assert (0 < 2 ^ (- (t + 1))) by (apply Z.pow_pos_nonneg; lia).
    assert (0 < 2 ^ (- t)) by (apply Z.pow_pos_nonneg; lia).
    rewrite !Z2Pos.id by assumption.
    replace (- t) with (- (t + 1) + 1) by lia.
    rewrite (Z.pow_add_r 2 (- (t + 1)) 1) by lia.
    change (2 ^ 53) with (2 ^ 52 * 2). change (2 ^ 1) with 2. ring.
  - destruct (Z.eq_dec t (-1)) as [-> | Hne].
    + vm_compute. reflexivity.
    + destruct (0 <=? t + 1) eqn:E1; [| apply Z.leb_gt in E1; lia].
      destruct (0 <=? t) eqn:E2; [| apply Z.leb_gt in E2; lia].
      assert (E : 2 ^ 52 * 2 ^ (t + 1) = 2 ^ 53 * 2 ^ t).
      { rewrite (Z.pow_add_r 2 t 1) by lia.
        change (2 ^ 53) with (2 ^ 52 * 2). change (2 ^ 1) with 2. ring. }
      rewrite E. reflexivity.
Qed.

(** A value [k * 2^t] that binary64 holds is rounded to itself. *)
Lemma round_pos_fix (k t : Z) :
  0 < k <= 2 ^ 53 -> -1074 <= t -> (2 ^ 52 <= k \/ t = -1074) ->
  round_pos (k * 2 ^ Z.max 0 t) (2 ^ Z.max 0 (- t)) = encode k t.
Proof.
  intros Hk Ht Hn.
  pose proof (up_pos t) as P1. pose proof (up_pos (- t)) as P2.
  set (a := k * 2 ^ Z.max 0 t). set (b := 2 ^ Z.max 0 (- t)).
  assert (Ha : 0 < a) by (unfold a; nia).
  assert (Hb : 0 < b) by exact P2.
  (* the value is k * 2^t: scaled by t it is k *)
  assert (Hbelow : forall d, 0 <= d -> k < 2 ^ d ->
            a * 2 ^ Z.max 0 (- (t + d)) < b * 2 ^ Z.max 0 (t + d)).
  { intros d Hd Hlt. unfold a, b.
    assert (Hle : t <= t + d) by lia.
    pose proof (up_shift Hle) as Hs.
    replace (t + d - t) with d in Hs by lia.
    pose proof (up_pos (t + d)). pose proof (up_pos (- (t + d))).
    set (u := 2 ^ Z.max 0 t) in *. set (v := 2 ^ Z.max 0 (- t)) in *.
    set (u' := 2 ^ Z.max 0 (t + d)) in *.
    set (v' := 2 ^ Z.max 0 (- (t + d))) in *.
    rewrite Hs.
    apply (Z.mul_lt_mono_pos_r u); [lia |].
    replace (k * u * v' * u) with (k * u * (v' * u)) by ring.
    assert (0 < u * (v' * u)) by nia.
    replace (k * u * (v' * u)) with (k * (u * (v' * u))) by ring.
    replace (2 ^ d * (v' * u) * u) with (2 ^ d * (u * (v' * u))) by ring.
    apply Z.mul_lt_mono_pos_r; lia. }
  assert (Habove : forall d, 0 <= d -> 2 ^ d <= k ->
            b * 2 ^ Z.max 0 (t + d) <= a * 2 ^ Z.max 0 (- (t + d))).
  { intros d Hd Hle'. unfold a, b.
    assert (Hle : t <= t + d) by lia.
    pose proof (up_shift Hle) as Hs.
    replace (t + d - t) with d in Hs by lia.
    pose proof (up_pos (t + d)). pose proof (up_pos (- (t + d))).
    set (u := 2 ^ Z.max 0 t) in *. set (v := 2 ^ Z.max 0 (- t)) in *.
    set (u' := 2 ^ Z.max 0 (t + d)) in *.
    set (v' := 2 ^ Z.max 0 (- (t + d))) in *.
    rewrite Hs.
    apply (Z.mul_le_mono_pos_r _ _ u); [lia |].
    assert (0 < u * (v' * u)) by nia.
    replace (k * u * v' * u) with (k * (u * (v' * u))) by ring.
    replace (2 ^ d * (v' * u) * u) with (2 ^ d * (u * (v' * u))) by ring.
    apply Z.mul_le_mono_nonneg_r; lia. }
  destruct (Z.eq_dec k (2 ^ 53)) as [E53 | N53].
  - (* the significand overflows into the next exponent *)
    assert (He : ilog2 a b = t + 53).
    { apply Z.le_antisymm.
      - assert (ilog2 a b < t + 54); [| lia].
        apply ilog2_below; auto. apply Hbelow; [lia |].
        rewrite E53. apply Z.pow_lt_mono_r; lia.
      - apply ilog2_above; auto. apply Habove; lia. }
    rewrite round_pos_eq.
    assert (Hx : expo a b = t + 1) by (unfold expo; rewrite He; lia).
    assert (Hs : signif a b = 2 ^ 52).
    { unfold signif. rewrite Hx.
      assert (Hle : t <= t + 1) by lia.
      pose proof (up_shift Hle) as Hsh.
      replace (t + 1 - t) with 1 in Hsh by lia. change (2 ^ 1) with 2 in Hsh.
      pose proof (up_pos (t + 1)). pose proof (up_pos (- (t + 1))).
      unfold a, b. rewrite E53.
      set (u := 2 ^ Z.max 0 t) in *. set (v := 2 ^ Z.max 0 (- t)) in *.
      set (u' := 2 ^ Z.max 0 (t + 1)) in *.
      set (v' := 2 ^ Z.max 0 (- (t + 1))) in *.
      replace (2 ^ 53 * u * v') with (2 ^ 52 * (v * u')).
      - apply rne_exact. nia.
      - rewrite Hsh. change (2 ^ 53) with (2 ^ 52 * 2). ring. }
    rewrite Hx, Hs, E53. apply encode_carry. exact Ht.
  - assert (Hx : expo a b = t).
    { unfold expo. destruct Hn as [H52 | Hsub].
      - assert (He : ilog2 a b = t + 52).
        { apply Z.le_antisymm.
          - assert (ilog2 a b < t + 53); [| lia].
            apply ilog2_below; auto. apply Hbelow; lia.
          - apply ilog2_above; auto. apply Habove; lia. }
        rewrite He. lia.
      - assert (ilog2 a b < t + 53); [| lia].
        apply ilog2_below; auto. apply Hbelow; lia. }
    rewrite round_pos_eq, Hx.
    assert (Hs : signif a b = k).
    { unfold signif. rewrite Hx. unfold a, b.
      set (u := 2 ^ Z.max 0 t) in *. set (v := 2 ^ Z.max 0 (- t)) in *.
      replace (k * u * v) with (k * (v * u)) by ring.
      apply rne_exact. nia. }
    rewrite Hs. reflexivity.
Qed.

Lemma Qred_zero (p : positive) : Qred (0 # p) = 0%Q.
Proof.
  change 0%Q with (Qred 0). apply Qred_complete. reflexivity.
Qed.

(** What [round_pos] returns is 0 or a positive binary64 value, which is
    rounded to itself. *)
Lemma round_pos_idem (a b : Z) (m : Q) :
  0 < a -> 0 < b -> round_pos a b = Some m ->
  m = 0%Q
  \/ exists (p d : positive),
       m = (Zpos p # d)%Q /\ round_pos (Zpos p) (Zpos d) = Some m.
Proof.
  intros Ha Hb. rewrite round_pos_eq.
  pose proof (signif_le Ha Hb) as Hk.
  assert (Ht : -1074 <= expo a b) by (unfold expo; lia).
  assert (Hn : 2 ^ 52 <= signif a b \/ expo a b = -1074).
  { destruct (Z.le_gt_cases (-1022) (ilog2 a b)) as [H | H].
    - left. apply signif_ge; auto.
    - right. unfold expo. lia. }
  set (k := signif a b) in *. set (t := expo a b) in *.
  intros Hm.
  destruct (Z.eq_dec k 0) as [E0 | N0].
  - left. rewrite E0 in Hm. unfold encode in Hm.
    destruct (0 <=? t).
    + rewrite Z.mul_0_l in Hm.
      destruct (2 ^ 1024 <=? 0); [discriminate |].
      injection Hm as <-. reflexivity.
    + rewrite Qred_zero in Hm. injection Hm as <-. reflexivity.
  - right.
    assert (Hk' : 0 < k <= 2 ^ 53) by lia.
    pose proof (round_pos_fix Hk' Ht Hn) as Hfix.
    rewrite Hm in Hfix.
    pose proof Hm as Hm'. unfold encode in Hm'.
    destruct (0 <=? t) eqn:Et.
    + apply Z.leb_le in Et.
      destruct (2 ^ 1024 <=? k * 2 ^ t); [discriminate |].
      injection Hm' as <-.
      replace (Z.max 0 t) with t in Hfix by lia.
      replace (Z.max 0 (- t)) with 0 in Hfix by lia.
      change (2 ^ 0) with 1 in Hfix.
      assert (Hv : 0 < k * 2 ^ t).
      { assert (0 < 2 ^ t) by (apply Z.pow_pos_nonneg; lia). nia. }
      destruct (k * 2 ^ t) as [| p | p] eqn:Ev; try lia.
      exists p, 1%positive. split; [reflexivity | exact Hfix].
    + apply Z.leb_gt in Et.
      replace (Z.max 0 t) with 0 in Hfix by lia.
      replace (Z.max 0 (- t)) with (- t) in Hfix by lia.
      change (2 ^ 0) with 1 in Hfix. rewrite Z.mul_1_r in Hfix.
      assert (Hp : 0 < 2 ^ (- t)) by (apply Z.pow_pos_nonneg; lia).
      assert (Hq : (m == k # Z.to_pos (2 ^ (- t)))%Q).
      { assert (E : Qred (k # Z.to_pos (2 ^ (- t))) = m) by congruence.
        rewrite <- E. apply Qred_correct. }
      destruct m as [n d].
      unfold Qeq in Hq. cbn [Qnum Qden] in Hq.
      rewrite Z2Pos.id in Hq by exact Hp.
      assert (Hn' : 0 < n) by nia.
      destruct n as [| p | p]; try lia.
      exists p, d. split; [reflexivity |].
      rewrite <- Hfix. apply round_pos_frac; try lia.
Qed.

Lemma le_Fin (x y : Q) : le (Fin x) (Fin y) = true <-> (x <= y)%Q.
Proof.
  unfold le. destruct (Qlt_le_dec y x) as [H | H]; split; intros H'.
  - discriminate.
  - exfalso. exact (Qlt_not_le _ _ H H').
  - exact H.
  - reflexivity.
Qed.

Lemma le_number_trans (a b c : number) :
  le a b = true -> le b c = true -> le a c = true.
Proof.
  destruct a as [x | | |], b as [y | | |], c as [z | | |];
    try reflexivity; try discriminate.
  rewrite !le_Fin. apply Qle_trans.
Qed.

Lemma round_pos_nonneg (a b : Z) (m : Q) :
  0 < a -> 0 < b -> round_pos a b = Some m -> (0 <= m)%Q.
Proof.
  intros Ha Hb H.
  destruct (round_pos_idem Ha Hb H) as [-> | (p & d & -> & _)].
  - apply Qle_refl.
  - unfold Qle. simpl. lia.
Qed.

(** Rounding to binary64 keeps the order. *)
Lemma round64_mono (x y : Q) :
  (x <= y)%Q -> le (round64 x) (round64 y) = true.
Proof.
  destruct x as [nx dx], y as [ny dy]. unfold Qle, round64.
  cbn [Qnum Qden]. intros H.
  destruct nx as [| px | px], ny as [| py | py]; try lia.
  - reflexivity.
  - destruct (round_pos (Z.pos py) (Z.pos dy)) as [m |] eqn:E;
      [| reflexivity].
    apply le_Fin. apply (@round_pos_nonneg (Z.pos py) (Z.pos dy)); auto; lia.
  - pose proof (@round_pos_mono (Z.pos px) (Z.pos dx) (Z.pos py) (Z.pos dy)
                  ltac:(lia) ltac:(lia) ltac:(lia) ltac:(lia) H) as Hm.
    destruct (round_pos (Z.pos px) (Z.pos dx)) as [m1 |];
      destruct (round_pos (Z.pos py) (Z.pos dy)) as [m2 |];
      try reflexivity; [apply le_Fin; exact Hm | contradiction].
  - destruct (round_pos (Z.pos px) (Z.pos dx)) as [m |] eqn:E;
      [| reflexivity].
    apply le_Fin.
    pose proof (@round_pos_nonneg (Z.pos px) (Z.pos dx) m
                  ltac:(lia) ltac:(lia) E) as Hm.
    apply (Qopp_le_compat 0 m) in Hm. exact Hm.
  - destruct (round_pos (Z.pos px) (Z.pos dx)) as [m1 |] eqn:E1;
      destruct (round_pos (Z.pos py) (Z.pos dy)) as [m2 |] eqn:E2;
      try reflexivity.
    apply le_Fin.
    pose proof (@round_pos_nonneg (Z.pos px) (Z.pos dx) m1
                  ltac:(lia) ltac:(lia) E1) as H1.
    pose proof (@round_pos_nonneg (Z.pos py) (Z.pos dy) m2
                  ltac:(lia) ltac:(lia) E2) as H2.
    apply (Qopp_le_compat 0 m1) in H1.
    apply (Qle_trans _ 0); assumption.
  - assert (H' : Z.pos py * Z.pos dx <= Z.pos px * Z.pos dy) by lia.
    pose proof (@round_pos_mono (Z.pos py) (Z.pos dy) (Z.pos px) (Z.pos dx)
                  ltac:(lia) ltac:(lia) ltac:(lia) ltac:(lia) H') as Hm.
    destruct (round_pos (Z.pos px) (Z.pos dx)) as [m1 |];
      destruct (round_pos (Z.pos py) (Z.pos dy)) as [m2 |];
      try reflexivity; [| contradiction].
    apply le_Fin. apply Qopp_le_compat. exact Hm.
Qed.

(** A result of rounding is a binary64 value: rounding leaves it. *)
Lemma round64_idem (x m : Q) : round64 x = Fin m -> round64 m = Fin m.
Proof.
  destruct x as [nx dx]. unfold round64 at 1. cbn [Qnum Qden].
  destruct nx as [| px | px].
  - intros H. injection H as <-. reflexivity.
  - destruct (round_pos (Z.pos px) (Z.pos dx)) as [m' |] eqn:E;
      [| discriminate].
    intros H. injection H as <-.
    destruct (@round_pos_idem (Z.pos px) (Z.pos dx) m'
                ltac:(lia) ltac:(lia) E) as [-> | (p & d & -> & Hr)].
    + reflexivity.
    + unfold round64. cbn [Qnum Qden]. rewrite Hr. reflexivity.
  - destruct (round_pos (Z.pos px) (Z.pos dx)) as [m' |] eqn:E;
      [| discriminate].
    intros H. injection H as <-.
    destruct (@round_pos_idem (Z.pos px) (Z.pos dx) m'
                ltac:(lia) ltac:(lia) E) as [-> | (p & d & -> & Hr)].
    + reflexivity.
    + unfold round64. cbn [Qnum Qden Qopp Z.opp]. rewrite Hr. reflexivity.
Qed.

(** Stepping a binary64 value: one down is no more, one up is no less, and
    both keep the order. *)
Lemma dec_mono (x y : Q) :
  (x <= y)%Q -> le (dec (Fin x)) (dec (Fin y)) = true.
Proof.
  intros H. unfold dec. apply round64_mono.
  apply Qplus_le_compat; [exact H | apply Qle_refl].
Qed.

Lemma inc_mono (x y : Q) :
  (x <= y)%Q -> le (inc (Fin x)) (inc (Fin y)) = true.
Proof.
  intros H. unfold inc. apply round64_mono.
  apply Qplus_le_compat; [exact H | apply Qle_refl].
Qed.

Lemma dec_below (x : Q) :
  round64 x = Fin x -> le (dec (Fin x)) (Fin x) = true.
Proof.
  intros Hx. rewrite <- Hx at 2. unfold dec. apply round64_mono.
  rewrite <- (Qplus_0_r x) at 2. apply Qplus_le_compat; [apply Qle_refl |].
  unfold Qle. simpl. lia.
Qed.

Lemma inc_above (x : Q) :
  round64 x = Fin x -> le (Fin x) (inc (Fin x)) = true.
Proof.
  intros Hx. rewrite <- Hx at 1. unfold inc. apply round64_mono.
  rewrite <- (Qplus_0_r x) at 1. apply Qplus_le_compat; [apply Qle_refl |].
  unfold Qle. simpl. lia.
Qed.

(** No binary64 value is above [(2^53 - 1) * 2^971]. *)
Lemma encode_le_max (k t : Z) (m : Q) :
  0 <= k <= 2 ^ 53 -> (2 ^ 52 <= k \/ t = -1074) ->
  encode k t = Some m -> (m <= inject_Z ((2 ^ 53 - 1) * 2 ^ 971))%Q.
Proof.
  intros Hk Hn. unfold encode.
  assert (H53 : 2 ^ 53 = 2 * 2 ^ 52) by reflexivity.
  assert (P52 : 0 < 2 ^ 52) by reflexivity.
  assert (P971 : 0 < 2 ^ 971) by (apply Z.pow_pos_nonneg; lia).
  assert (E971 : 2 ^ 971 = 2 * 2 ^ 970) by (apply (Z.pow_succ_r 2 970); lia).
  assert (P970 : 0 < 2 ^ 970) by (apply Z.pow_pos_nonneg; lia).
  assert (T1 : 2 ^ 1024 = 2 ^ 53 * 2 ^ 971)
    by (rewrite <- Z.pow_add_r by lia; reflexivity).
  assert (T2 : 2 ^ 1024 = 2 ^ 52 * 2 ^ 972)
    by (rewrite <- Z.pow_add_r by lia; reflexivity).
  assert (P972 : 0 < 2 ^ 972) by (apply Z.pow_pos_nonneg; lia).
  destruct (0 <=? t) eqn:Et.
  - apply Z.leb_le in Et.
    destruct (2 ^ 1024 <=? k * 2 ^ t) eqn:O; [discriminate |].
    apply Z.leb_gt in O. intros H. injection H as <-.
    rewrite <- Zle_Qle.
    assert (H52 : 2 ^ 52 <= k) by lia.
    assert (Hp : 0 < 2 ^ t) by (apply Z.pow_pos_nonneg; lia).
    destruct (Z.le_gt_cases t 970) as [Hs | Hl].
    + assert (Hle : 2 ^ t <= 2 ^ 970) by (apply Z.pow_le_mono_r; lia).
      rewrite E971.
      set (A := 2 ^ 970) in *. set (B := 2 ^ t) in *.
      set (c := 2 ^ 52) in *. rewrite H53 in *.
      clear T1 T2 P971 P972 E971.
      assert (k * B <= 2 * c * A) by nia.
      nia.
    + destruct (Z.eq_dec t 971) as [E | E].
      * subst t. rewrite T1 in O.
        set (A := 2 ^ 971) in *. set (c := 2 ^ 53) in *.
        clear T1 T2 E971 P970 P972.
        assert (k < c) by nia.
        apply Z.mul_le_mono_nonneg_r; lia.
      * exfalso.
        assert (Hle : 2 ^ 972 <= 2 ^ t) by (apply Z.pow_le_mono_r; lia).
        rewrite T2 in O.
        set (A := 2 ^ 972) in *. set (B := 2 ^ t) in *.
        set (c := 2 ^ 52) in *.
        clear T1 T2 E971 P970 P971 H53. nia.
  - apply Z.leb_gt in Et. intros H.
    assert (E : Qred (k # Z.to_pos (2 ^ (- t))) = m) by congruence.
    rewrite <- E, Qred_correct. unfold Qle, inject_Z. cbn [Qnum Qden].
    assert (Hp : 0 < 2 ^ (- t)) by (apply Z.pow_pos_nonneg; lia).
    rewrite Z2Pos.id by exact Hp. rewrite Z.mul_1_r.
    set (A := 2 ^ 971) in *. set (B := 2 ^ (- t)) in *.
    rewrite H53 in *. set (c := 2 ^ 52) in *.
    clear T1 T2 E971 P970 P972.
    assert (2 * c <= (2 * c - 1) * A) by nia.
    nia.
Qed.

Lemma binary64_le_max (q : Q) :
  round64 q = Fin q -> (q <= inject_Z ((2 ^ 53 - 1) * 2 ^ 971))%Q.
Proof.
  assert (HM : 0 <= (2 ^ 53 - 1) * 2 ^ 971) by (vm_compute; discriminate).
  destruct q as [n d]. unfold round64. cbn [Qnum Qden].
  destruct n as [| p | p].
  - intros _. unfold Qle, inject_Z. cbn [Qnum Qden].
    set (M := (2 ^ 53 - 1) * 2 ^ 971) in *. lia.
  - destruct (round_pos (Z.pos p) (Z.pos d)) as [m |] eqn:E;
      [| discriminate].
    intros H. assert (Hm : m = (Z.pos p # d)%Q) by congruence. subst m.
    rewrite round_pos_eq in E.
    apply (@encode_le_max (signif (Z.pos p) (Z.pos d))
             (expo (Z.pos p) (Z.pos d))); [| | exact E].
    + apply signif_le; lia.
    + destruct (Z.le_gt_cases (-1022) (ilog2 (Z.pos p) (Z.pos d))) as [L | G].
      * left. apply signif_ge; lia.
      * right. unfold expo. lia.
  - intros _. unfold Qle, inject_Z. cbn [Qnum Qden].
    set (M := (2 ^ 53 - 1) * 2 ^ 971) in *. lia.
Qed.

(** One step up from a binary64 value is a binary64 value again, not an
    infinity. *)
Lemma inc_finite (q : Q) :
  round64 q = Fin q ->
  exists b : Q, inc (Fin q) = Fin b /\ round64 b = Fin b /\ (q <= b)%Q.
Proof.
  intros Hq.
  pose proof (inc_above Hq) as Hlo.
  pose proof (binary64_le_max Hq) as Hmax.
  assert (Hhi : le (inc (Fin q))
                   (inc (Fin (inject_Z ((2 ^ 53 - 1) * 2 ^ 971)))) = true)
    by (apply inc_mono; exact Hmax).
  assert (Htop : inc (Fin (inject_Z ((2 ^ 53 - 1) * 2 ^ 971)))
                 = Fin (inject_Z ((2 ^ 53 - 1) * 2 ^ 971)))
    by (vm_compute; reflexivity).
  rewrite Htop in Hhi. clear Htop Hmax.
  remember (inject_Z ((2 ^ 53 - 1) * 2 ^ 971)) as M eqn:EM. clear EM.
  destruct (inc (Fin q)) as [b | | |] eqn:E; try discriminate.
  exists b. split; [reflexivity |]. split.
  - unfold inc in E. apply (round64_idem _ E).
  - apply le_Fin. exact Hlo.
Qed.

End Rounding.

(* ------------------------------------------------------------------ *)
(** ** Comparisons and steps on integers *)

Section NumberFacts.

Lemma zero_int : zero = int 0.
Proof. reflexivity. Qed.

Lemma lt_int (a b : Z) : lt (int a) (int b) = (a <? b)%Z.
Proof.
  unfold lt, int.
  destruct (Qlt_le_dec (inject_Z a) (inject_Z b)) as [H | H].
  - rewrite <- Zlt_Qlt in H. symmetry. apply Z.ltb_lt. exact H.
  - rewrite <- Zle_Qle in H. symmetry. apply Z.ltb_ge. exact H.
Qed.

Lemma le_int (a b : Z) : le (int a) (int b) = (a <=? b)%Z.
Proof.
  unfold le, int.
  destruct (Qlt_le_dec (inject_Z b) (inject_Z a)) as [H | H].
  - rewrite <- Zlt_Qlt in H. symmetry. apply Z.leb_gt. exact H.
  - rewrite <- Zle_Qle in H. symmetry. apply Z.leb_le. exact H.
Qed.

Lemma top_above_safe : (2 ^ 53 < top)%Z.
Proof. unfold top. apply Z.pow_lt_mono_r; lia. Qed.

(** Up to 2^53 every integer is a binary64 value. *)
Lemma of_Z_small (z : Z) : (0 <= z <= 2 ^ 53)%Z -> of_Z z = int z.
Proof.
  intros Hz. unfold of_Z. rewrite round64_int by lia.
  rewrite nearest_small by lia.
  pose proof top_above_safe.
  destruct (top <=? z)%Z eqn:E; [apply Z.leb_le in E; lia | reflexivity].
Qed.

(** A non-negative integer denotes a binary64 integer or overflows. *)
Lemma of_Z_nonneg (z : Z) :
  (0 <= z)%Z ->
  of_Z z = PosInf
  \/ exists N : Z,
       of_Z z = int N /\ (0 <= N < top)%Z /\ nearest N = N.
Proof.
  intros Hz. unfold of_Z. rewrite round64_int by lia.
  destruct (top <=? nearest z)%Z eqn:E; [left; reflexivity |].
  right. exists (nearest z). apply Z.leb_gt in E.
  pose proof (nearest_nonneg Hz).
  repeat split; auto. apply nearest_idem. exact Hz.
Qed.

(** An integer denotes a binary64 integer or overflows. *)
Lemma of_Z_shape (z : Z) :
  of_Z z = PosInf \/ of_Z z = NegInf \/ exists v : Z, of_Z z = int v.
Proof.
  destruct z as [| p | p].
  - right. right. exists 0%Z. reflexivity.
  - unfold of_Z. rewrite round64_int by lia.
    destruct (top <=? nearest (Z.pos p))%Z; [left; reflexivity |].
    right. right. eexists. reflexivity.
  - unfold of_Z, round64, inject_Z. cbn [Qnum Qden].
    rewrite round_pos_int by lia.
    destruct (top <=? nearest (Z.pos p))%Z; [right; left; reflexivity |].
    right. right. exists (- nearest (Z.pos p))%Z. reflexivity.
Qed.

Lemma dec_int (p : Z) :
  (1 <= p)%Z ->
  dec (int p) =
    if (top <=? nearest (p - 1))%Z then PosInf else int (nearest (p - 1)).
Proof.
  intros Hp. unfold dec, int.
  rewrite round64_den_1 by reflexivity.
  replace (Qnum (inject_Z p - 1)) with (p - 1)%Z
    by (unfold inject_Z; simpl; lia).
  apply round64_int. lia.
Qed.

Lemma inc_int (p : Z) :
  (0 <= p)%Z ->
  inc (int p) =
    if (top <=? nearest (p + 1))%Z then PosInf else int (nearest (p + 1)).
Proof.
  intros Hp. unfold inc, int.
  rewrite round64_den_1 by reflexivity.
  replace (Qnum (inject_Z p + 1)) with (p + 1)%Z
    by (unfold inject_Z; simpl; lia).
  apply round64_int. lia.
Qed.

(** Below 2^53 the two steps are exact. *)
Lemma dec_of_Z (a : Z) : (1 <= a <= 2 ^ 53)%Z -> dec (of_Z a) = of_Z (a - 1).
Proof.
  intros Ha. rewrite !of_Z_small by lia. rewrite dec_int by lia.
  rewrite nearest_small by lia.
  pose proof top_above_safe.
  destruct (top <=? a - 1)%Z eqn:E; [apply Z.leb_le in E; lia | reflexivity].
Qed.

Lemma inc_of_Z (a : Z) : (0 <= a < 2 ^ 53)%Z -> inc (of_Z a) = of_Z (a + 1).
Proof.
  intros Ha. rewrite !of_Z_small by lia. rewrite inc_int by lia.
  rewrite nearest_small by lia.
  pose proof top_above_safe.
  destruct (top <=? a + 1)%Z eqn:E; [apply Z.leb_le in E; lia | reflexivity].
Qed.

Lemma lt_of_Z (a b : Z) :
  (0 <= a <= 2 ^ 53)%Z -> (0 <= b <= 2 ^ 53)%Z ->
  lt (of_Z a) (of_Z b) = (a <? b)%Z.
Proof. intros Ha Hb. rewrite !of_Z_small by lia. apply lt_int. Qed.

Lemma of_Z_eq (a b : Z) :
  (0 <= a <= 2 ^ 53)%Z -> (0 <= b <= 2 ^ 53)%Z ->
  of_Z a = of_Z b -> a = b.
Proof.
  intros Ha Hb. rewrite !of_Z_small by lia.
  unfold int, inject_Z. intros H. injection H. auto.
Qed.

Lemma int_eq (a b : Z) : int a = int b -> a = b.
Proof. unfold int, inject_Z. intros H. injection H. auto. Qed.

Lemma eq_not_lt (a b : number) : eq a b = true -> lt a b = false.
Proof.
  unfold eq. intros H. apply andb_prop in H. destruct H as [_ H].
  destruct a as [x | | |], b as [y | | |]; simpl in *;
    try reflexivity; try discriminate.
  destruct (Qlt_le_dec x y); [discriminate | reflexivity].
Qed.

Lemma eq_zero_not_gt (a : number) : eq a zero = true -> gt a zero = false.
Proof.
  rewrite zero_int. unfold eq, gt, int.
  intros H. apply andb_prop in H. destruct H as [H _].
  destruct a as [x | | |]; simpl in *; try reflexivity; try discriminate.
  destruct (Qlt_le_dec (inject_Z 0) x); [discriminate | reflexivity].
Qed.

End NumberFacts.

(** The two steps on sample values: the spacing of binary64 is 2 from 2^53
    on, so 2^53 + 1 is a tie and goes to the even significand; one tenth is
    not a binary64 value, and a step down and two steps up from the nearest
    one lead to the binary64 value of 1.1; next to -1, a value as small as
    10^-20 is lost. *)
Example steps_above_2_53 :
  of_Z (2 ^ 53 + 1) = int (2 ^ 53)
  /\ dec (of_Z (2 ^ 53 + 2)) = int (2 ^ 53)
  /\ inc (of_Z (2 ^ 53)) = int (2 ^ 53)
  /\ dec (of_Z (2 ^ 53 + 4)) = int (2 ^ 53 + 4)
  /\ dec (of_Z (2 ^ 53)) = int (2 ^ 53 - 1)
  /\ inc (of_Z (2 ^ 53 - 1)) = int (2 ^ 53).
Proof. vm_compute. repeat split. Qed.

Example steps_from_a_tenth :
  round64 (1 # 10) = Fin (3602879701896397 # 36028797018963968)
  /\ dec (round64 (1 # 10)) = Fin (-8106479329266893 # 9007199254740992)
  /\ inc (dec (round64 (1 # 10)))
     = Fin (900719925474099 # 9007199254740992)
  /\ inc (inc (dec (round64 (1 # 10))))
     = Fin (2476979795053773 # 2251799813685248)
  /\ round64 (11 # 10) = Fin (2476979795053773 # 2251799813685248).
Proof. vm_compute. repeat split. Qed.

Example step_down_from_a_tiny_value :
  dec (round64 (1 # 10 ^ 20)) = int (-1)
  /\ inc (int (-1)) = int 0
  /\ dec PosInf = PosInf
  /\ inc NaN = NaN.
Proof. vm_compute. repeat split. Qed.

(* ------------------------------------------------------------------ *)
(** ** What one run of [acquire] and of [release] does *)

Section MethodFacts.

Variable s : Semaphore.

Lemma acquire_granted (me : resolver) :
  gt (_permits s) zero = true ->
  outcome (acquire me s) = Normal false
  /\ after (acquire me s) = with_permits (dec (_permits s)) s
  /\ resolved_of (trace (acquire me s)) = [].
Proof.
  intros H. destruct s as [p w m d n]. unfold gt in H. cbn [_permits] in H.
  destruct d; evaluate; rewrite H; auto.
Qed.

Lemma acquire_queued (me : resolver) :
  gt (_permits s) zero = false ->
  outcome (acquire me s) = Normal true
  /\ after (acquire me s) = with_waiting (waiting s ++ [me]) s
  /\ resolved_of (trace (acquire me s)) = [].
Proof.
  intros H. destruct s as [p w m d n]. unfold gt in H. cbn [_permits] in H.
  assert (E : forall l : list resolver,
             (fix app (l0 m0 : list resolver) {struct l0} : list resolver :=
                match l0 with
                | [] => m0
                | a :: l1 => a :: app l1 m0
                end) l [me] = l ++ [me]) by reflexivity.
  destruct d; evaluate; rewrite H; rewrite E; auto.
Qed.

Lemma release_handoff (r : resolver) (rest : list resolver) :
  waiting s = r :: rest ->
  outcome (release s) = Normal tt
  /\ after (release s) = with_waiting rest s
  /\ resolved_of (trace (release s)) = [r].
Proof.
  intros H. destruct s as [p w m d n]. simpl in H. subst w.
  destruct d; evaluate; auto.
Qed.

Lemma release_increment :
  waiting s = [] -> lt (_permits s) (_maxPermits s) = true ->
  outcome (release s) = Normal tt
  /\ after (release s) = with_permits (inc (_permits s)) s
  /\ resolved_of (trace (release s)) = [].
Proof.
  intros H L. destruct s as [p w m d n]. cbn [_permits _maxPermits waiting] in H, L. subst w.
  destruct d; evaluate; rewrite L; auto.
Qed.

Lemma release_saturated :
  waiting s = [] -> lt (_permits s) (_maxPermits s) = false ->
  outcome (release s) = Normal tt
  /\ after (release s) = s
  /\ resolved_of (trace (release s)) = [].
Proof.
  intros H L. destruct s as [p w m d n]. cbn [_permits _maxPermits waiting] in H, L. subst w.
  destruct d; evaluate; rewrite L; auto.
Qed.

Lemma acquire_releases_lock (me : resolver) :
  lock_released (trace (acquire me s)) = true.
Proof.
  destruct s as [p w m d n].
  destruct (lt zero p) eqn:H; destruct d; evaluate; rewrite H; reflexivity.
Qed.

Lemma release_releases_lock :
  lock_released (trace (release s)) = true.
Proof.
  destruct s as [p w m d n].
  destruct w as [| r queue]; destruct (lt p m) eqn:H; destruct d;
    evaluate; try rewrite H; reflexivity.
Qed.

Lemma resume_after (woken : list resolver) :
  fst (resume woken s) = s.
Proof.
  induction woken as [| r woken IH]; simpl; [reflexivity |].
  assert (E : after (acquire_resumed s) = s).
  { destruct s as [p w m d n]. destruct d; reflexivity. }
  rewrite E. destruct (resume woken s) as [s2 t2]. simpl in *. exact IH.
Qed.

End MethodFacts.

(* ------------------------------------------------------------------ *)
(** ** Every turn is one of the five *)

Section Serving.

Lemma serve_serves (w : World) : serves w (serve w).
Proof.
  unfold serve. destruct (held w) eqn:Hh; [apply serves_blocked; exact Hh |].
  destruct (_lock w) as [| [c o] rest] eqn:Hc.
  - apply serves_nothing. exact Hc.
  - destruct o.
    + rewrite acquire_releases_lock.
      destruct (gt (_permits (sem w)) zero) eqn:Hg.
      * destruct (acquire_granted (sem w) c Hg) as (Ho & Ha & _).
        rewrite Ho, Ha.
        eapply serves_granted; eauto.
      * destruct (acquire_queued (sem w) c Hg) as (Ho & Ha & _).
        rewrite Ho, Ha.
        eapply serves_queued; eauto.
    + rewrite release_releases_lock.
      destruct (waiting (sem w)) as [| r queue] eqn:Hw.
      * destruct (lt (_permits (sem w)) (_maxPermits (sem w))) eqn:Hl.
        -- destruct (release_increment (sem w) Hw Hl) as (Ho & Ha & Hr).
           rewrite Ho, Ha, Hr. simpl.
           eapply serves_increment; eauto. simpl. apply app_nil_r.
        -- destruct (release_saturated (sem w) Hw Hl) as (Ho & Ha & Hr).
           rewrite Ho, Ha, Hr. simpl.
           eapply serves_saturated; eauto. simpl. apply app_nil_r.
      * destruct (release_handoff (sem w) Hw) as (Ho & Ha & Hr).
        rewrite Ho, Ha, Hr.
        pose proof (resume_after (with_waiting queue (sem w)) [r]) as Hs.
        destruct (resume [r] (with_waiting queue (sem w))) as [s2 t2].
        simpl in Hs. subst s2.
        eapply serves_handoff; eauto.
Qed.

(** An invariant of calls and turns holds in every reachable world. *)
Lemma reachable_ind (c : number) (P : World -> Prop) :
  (forall opts w0, new_world c opts = Normal w0 -> P w0) ->
  (forall w o, P w -> P (call o w)) ->
  (forall w w', P w -> serves w w' -> P w') ->
  forall w, reachable c w -> P w.
Proof.
  intros Hinit Hcall Hadmit w (opts & w0 & es & Hnew & ->).
  assert (H0 : P w0) by (eapply Hinit; eauto).
  clear Hnew. revert w0 H0.
  induction es as [| e es IH]; intros w0 H0; simpl; [exact H0 |].
  apply IH. destruct e as [o |]; simpl.
  - apply Hcall. exact H0.
  - eapply Hadmit; [exact H0 | apply serve_serves].
Qed.

Lemma new_world_inv (c : number) (opts : SemaphoreOpts) (w0 : World) :
  new_world c opts = Normal w0 ->
  lt c zero = false
  /\ _permits (sem w0) = c /\ _maxPermits (sem w0) = c
  /\ waiting (sem w0) = [] /\ _lock w0 = []
  /\ completed w0 = [] /\ rejected w0 = [] /\ next_call w0 = 0
  /\ held w0 = false.
Proof.
  unfold new_world, constructor.
  destruct (lt c zero); [discriminate |].
  intros H. injection H as <-. simpl. repeat split; reflexivity.
Qed.

End Serving.

(* ------------------------------------------------------------------ *)
(** ** Sorted lists with an element dropped or appended *)

Section SortedLists.

Variable A : Type.
Variable R : A -> A -> Prop.

Lemma sorted_drop (l1 l2 : list A) (x : A) :
  StronglySorted R (l1 ++ x :: l2) -> StronglySorted R (l1 ++ l2).
Proof.
  induction l1 as [| a l1 IH]; simpl; intros H.
  - apply StronglySorted_inv in H. tauto.
  - apply StronglySorted_inv in H. destruct H as [Hs Hf].
    constructor; [auto |].
    apply Forall_app in Hf. destruct Hf as [Hf1 Hf2].
    apply Forall_app. split; [exact Hf1 |].
    inversion Hf2; assumption.
Qed.

Lemma sorted_snoc (l : list A) (x : A) :
  StronglySorted R l -> Forall (fun a => R a x) l ->
  StronglySorted R (l ++ [x]).
Proof.
  induction l as [| a l IH]; simpl; intros Hs Hf.
  - constructor; constructor.
  - apply StronglySorted_inv in Hs. destruct Hs as [Hs Ha].
    inversion Hf; subst.
    constructor; [auto |].
    apply Forall_app. split; [exact Ha | constructor; [assumption | constructor]].
Qed.

Lemma Forall_drop (P : A -> Prop) (l1 l2 : list A) (x : A) :
  Forall P (l1 ++ x :: l2) -> Forall P (l1 ++ l2).
Proof.
  intros H. apply Forall_app in H. destruct H as [H1 H2].
  apply Forall_app. split; [exact H1 | inversion H2; assumption].
Qed.

Lemma sorted_app_left (l1 l2 : list A) :
  StronglySorted R (l1 ++ l2) -> StronglySorted R l1.
Proof.
  induction l1 as [| a l1 IH]; simpl; intros H; [constructor |].
  apply StronglySorted_inv in H. destruct H as [Hs Hf].
  constructor; [auto |].
  apply Forall_app in Hf. tauto.
Qed.

End SortedLists.

(* ------------------------------------------------------------------ *)
(** ** The invariants hold in every reachable world *)

Section Invariants.

Lemma counted_serves (N : Z) (w w' : World) :
  (0 <= N < top)%Z -> nearest N = N ->
  counted N (sem w) -> serves w w' -> counted N (sem w').
Proof.
  intros HN HrN (p & Hp & Hb & Hrp & Hm & Hq) Hstep.
  destruct Hstep as
    [ _
    | _
    | c rest w' _ Hg Hs _ _ _ _
    | c rest w' _ Hg Hs _ _ _ _
    | c rest r queue w' _ Hw Hs _ _ _ _
    | c rest w' _ Hw Hl Hs _ _ _ _
    | c rest w' _ Hw Hl Hs _ _ _ _ ].
  - exists p. auto.
  - exists p. auto.
  - unfold gt in Hg. rewrite zero_int, Hp, lt_int in Hg.
    apply Z.ltb_lt in Hg.
    assert (H0 : (0 <= nearest (p - 1))%Z) by (apply nearest_nonneg; lia).
    assert (H1 : (nearest (p - 1) <= p)%Z).
    { rewrite <- Hrp at 2. apply nearest_mono; lia. }
    exists (nearest (p - 1)). rewrite Hs. simpl. rewrite Hp, dec_int by lia.
    destruct (top <=? nearest (p - 1))%Z eqn:E; [apply Z.leb_le in E; lia |].
    repeat split; auto; try lia.
    + apply nearest_idem. lia.
    + intros Hne. specialize (Hq Hne). lia.
  - exists p. rewrite Hs. simpl. repeat split; auto; try lia.
    intros _. unfold gt in Hg. rewrite zero_int, Hp, lt_int in Hg.
    apply Z.ltb_ge in Hg. lia.
  - assert (p = 0%Z) by (apply Hq; rewrite Hw; discriminate).
    exists p. rewrite Hs. simpl. repeat split; auto; lia.
  - rewrite Hp, Hm, lt_int in Hl. apply Z.ltb_lt in Hl.
    assert (H0 : (0 <= nearest (p + 1))%Z) by (apply nearest_nonneg; lia).
    assert (H1 : (nearest (p + 1) <= N)%Z).
    { rewrite <- HrN. apply nearest_mono; lia. }
    exists (nearest (p + 1)). rewrite Hs. simpl. rewrite Hp, inc_int by lia.
    destruct (top <=? nearest (p + 1))%Z eqn:E; [apply Z.leb_le in E; lia |].
    repeat split; auto; try lia.
    + apply nearest_idem. lia.
    + intros Hne. rewrite Hw in Hne. congruence.
  - exists p. rewrite Hs. auto 10.
Qed.

Lemma counted_new (N : Z) (opts : SemaphoreOpts) (w0 : World) :
  (0 <= N)%Z -> nearest N = N ->
  new_world (int N) opts = Normal w0 -> counted N (sem w0).
Proof.
  intros HN HrN H. apply new_world_inv in H.
  destruct H as (_ & Hp & Hm & Hw & _).
  exists N. split; [exact Hp |]. split; [lia |]. split; [exact HrN |].
  split; [exact Hm |]. intros Hne. congruence.
Qed.

Lemma counted_reachable (N : Z) (w : World) :
  (0 <= N < top)%Z -> nearest N = N ->
  reachable (int N) w -> counted N (sem w).
Proof.
  intros HN HrN. revert w. apply reachable_ind.
  - intros opts w0 H. eapply counted_new; eauto. lia.
  - intros w o H. exact H.
  - intros w w' H Hstep. eapply counted_serves; eauto.
Qed.

(** With an infinite capacity the counter stays infinite and nobody
    queues. *)
Lemma infinite_reachable (w : World) :
  reachable PosInf w ->
  _permits (sem w) = PosInf
  /\ waiting (sem w) = []
  /\ (forall (k : callid) (g : grant),
        In (k, g) (completed w) -> g = Immediate).
Proof.
  revert w. apply reachable_ind.
  - intros opts w0 H. apply new_world_inv in H.
    destruct H as (_ & Hp & _ & Hw & _ & Hd & _).
    rewrite Hd. repeat split; auto. intros k g [].
  - intros w o H. exact H.
  - intros w w' (Hp & Hw & Hc) Hstep.
    destruct Hstep as
      [ _
      | _
      | c rest w' _ Hg Hs _ _ Hd _
      | c rest w' _ Hg Hs _ _ Hd _
      | c rest r queue w' _ Hq Hs _ _ Hd _
      | c rest w' _ Hq Hl Hs _ _ Hd _
      | c rest w' _ Hq Hl Hs _ _ Hd _ ];
      auto.
    + rewrite Hs, Hd. simpl. rewrite Hp. repeat split; auto.
      intros k g Hin. apply in_app_or in Hin. destruct Hin as [Hin | Hin].
      * eapply Hc; eauto.
      * destruct Hin as [E | []]. congruence.
    + rewrite Hp in Hg. discriminate.
    + congruence.
    + rewrite Hp in Hl. destruct (_maxPermits (sem w)); discriminate.
    + rewrite Hs, Hd. auto.
Qed.

Lemma capacity_reachable (c : number) (w : World) :
  reachable c w -> _maxPermits (sem w) = c.
Proof.
  revert w. apply reachable_ind.
  - intros opts w0 H. apply new_world_inv in H. tauto.
  - intros w o H. exact H.
  - intros w w' H Hstep.
    destruct Hstep as
      [ _
      | _
      | c0 rest w' _ _ Hs _ _ _ _
      | c0 rest w' _ _ Hs _ _ _ _
      | c0 rest r queue w' _ _ Hs _ _ _ _
      | c0 rest w' _ _ _ Hs _ _ _ _
      | c0 rest w' _ _ _ Hs _ _ _ _ ];
      try rewrite Hs; simpl; exact H.
Qed.

Lemma quiet_reachable (c : number) (w : World) :
  reachable c w -> quiet w.
Proof.
  revert w. apply reachable_ind; unfold quiet.
  - intros opts w0 H. apply new_world_inv in H. tauto.
  - intros w o H. exact H.
  - intros w w' H Hstep.
    destruct Hstep; congruence.
Qed.

Lemma lock_free_reachable (c : number) (w : World) :
  reachable c w -> held w = false.
Proof.
  revert w. apply reachable_ind.
  - intros opts w0 H. apply new_world_inv in H. tauto.
  - intros w o H. exact H.
  - intros w w' H Hstep. destruct Hstep; assumption.
Qed.

Lemma served_reachable (c : number) (w : World) :
  reachable c w -> no_idle_permit (sem w) /\ fifo w.
Proof.
  revert w. apply reachable_ind.
  - intros opts w0 H. apply new_world_inv in H.
    destruct H as (_ & _ & _ & Hw & Hc & Hd & _).
    unfold no_idle_permit, fifo, timeline, chain_ids.
    rewrite Hw, Hc, Hd. simpl.
    split; [congruence | split; constructor].
  - intros w o [Hidle [Hs Hf]]. split; [exact Hidle |].
    unfold fifo, timeline, chain_ids in *. simpl.
    rewrite map_app. simpl. rewrite !app_assoc. rewrite !app_assoc in Hs, Hf.
    split.
    + apply sorted_snoc; assumption.
    + apply Forall_app. split.
      * eapply Forall_impl; [| exact Hf]. simpl. intros; lia.
      * constructor; [lia | constructor].
  - intros w w' [Hidle [Hs Hf]] Hstep.
    unfold no_idle_permit, fifo, timeline, chain_ids, order in *.
    destruct Hstep as
      [ _
      | _
      | c0 rest w' Hc Hg Hsem Hc' Hn' Hd' _
      | c0 rest w' Hc Hg Hsem Hc' Hn' Hd' _
      | c0 rest r queue w' Hc Hw Hsem Hc' Hn' Hd' _
      | c0 rest w' Hc Hw Hl Hsem Hc' Hn' Hd' _
      | c0 rest w' Hc Hw Hl Hsem Hc' Hn' Hd' _ ].
    + auto.
    + auto.
    + assert (Hw : waiting (sem w) = []).
      { destruct (waiting (sem w)) eqn:E; [reflexivity |].
        assert (gt (_permits (sem w)) zero = false)
          by (apply Hidle; discriminate).
        congruence. }
      rewrite Hsem, Hc', Hn', Hd'. simpl. rewrite Hw.
      rewrite Hc, Hw in Hs, Hf. simpl in Hs, Hf.
      split; [intros; congruence |].
      rewrite map_app. simpl. rewrite <- !app_assoc. simpl. auto.
    + rewrite Hsem, Hc', Hn', Hd'. simpl.
      rewrite Hc in Hs, Hf. simpl in Hs, Hf.
      split; [intros _; exact Hg |].
      rewrite <- !app_assoc. simpl. auto.
    + rewrite Hsem, Hc', Hn', Hd'. simpl.
      rewrite Hc, Hw in Hs, Hf. simpl in Hs, Hf.
      split.
      * intros _. apply Hidle. rewrite Hw. discriminate.
      * rewrite map_app. simpl. rewrite <- app_assoc. simpl.
        replace (map fst (completed w) ++ r :: queue ++ c0 :: map fst rest)
          with ((map fst (completed w) ++ r :: queue) ++ c0 :: map fst rest)
          in Hs, Hf by (rewrite <- app_assoc; reflexivity).
        apply sorted_drop in Hs. apply Forall_drop in Hf.
        rewrite <- app_assoc in Hs, Hf. simpl in Hs, Hf. auto.
    + rewrite Hsem, Hc', Hn', Hd'. simpl.
      rewrite Hc, Hw in Hs, Hf. simpl in Hs, Hf. rewrite Hw.
      split; [intros; congruence |]. simpl.
      apply sorted_drop in Hs. apply Forall_drop in Hf. auto.
    + rewrite Hsem, Hc', Hn', Hd'.
      rewrite Hc in Hs, Hf. rewrite Hw in *. simpl in Hs, Hf.
      split; [intros; congruence |]. simpl.
      apply sorted_drop in Hs. apply Forall_drop in Hf. auto.
Qed.

End Invariants.

(* ------------------------------------------------------------------ *)
(** ** The counter and the capacity across one call *)

Section Frames.

Variable s : Semaphore.

Lemma acquire_permits (me : resolver) :
  _permits (after (acquire me s)) =
    if gt (_permits s) zero then dec (_permits s) else _permits s.
Proof.
  destruct (gt (_permits s) zero) eqn:Hg.
  - destruct (acquire_granted s me Hg) as (_ & -> & _). reflexivity.
  - destruct (acquire_queued s me Hg) as (_ & -> & _). reflexivity.
Qed.

Lemma release_permits :
  _permits (after (release s)) =
    match waiting s with
    | [] => if lt (_permits s) (_maxPermits s) then inc (_permits s)
            else _permits s
    | _ :: _ => _permits s
    end.
Proof.
  destruct (waiting s) as [| r queue] eqn:Hw.
  - destruct (lt (_permits s) (_maxPermits s)) eqn:Hl.
    + destruct (release_increment s Hw Hl) as (_ & -> & _). reflexivity.
    + destruct (release_saturated s Hw Hl) as (_ & -> & _). reflexivity.
  - destruct (release_handoff s Hw) as (_ & -> & _). reflexivity.
Qed.

Lemma acquire_capacity (me : resolver) :
  _maxPermits (after (acquire me s)) = _maxPermits s.
Proof.
  destruct (gt (_permits s) zero) eqn:Hg.
  - destruct (acquire_granted s me Hg) as (_ & -> & _). reflexivity.
  - destruct (acquire_queued s me Hg) as (_ & -> & _). reflexivity.
Qed.

Lemma release_capacity :
  _maxPermits (after (release s)) = _maxPermits s.
Proof.
  destruct (waiting s) as [| r queue] eqn:Hw.
  - destruct (lt (_permits s) (_maxPermits s)) eqn:Hl.
    + destruct (release_increment s Hw Hl) as (_ & -> & _). reflexivity.
    + destruct (release_saturated s Hw Hl) as (_ & -> & _). reflexivity.
  - destruct (release_handoff s Hw) as (_ & -> & _). reflexivity.
Qed.

Lemma release_never_throws : outcome (release s) = Normal tt.
Proof.
  destruct (waiting s) as [| r queue] eqn:Hw.
  - destruct (lt (_permits s) (_maxPermits s)) eqn:Hl.
    + destruct (release_increment s Hw Hl) as (H & _). exact H.
    + destruct (release_saturated s Hw Hl) as (H & _). exact H.
  - destruct (release_handoff s Hw) as (H & _). exact H.
Qed.

End Frames.

(* ------------------------------------------------------------------ *)
(** ** The permit counter *)

(** C1. After construction with an integer capacity [n >= 0], whatever
    calls are issued and served, [0 <= permits <= maxPermits]; a run of
    [acquire] that finds no permit leaves the counter as it is, and so does a
    run of [release] that finds the counter not below the capacity. *)
Theorem permits_within_capacity (n : Z) (w : World) :
  (0 <= n)%Z ->
  reachable (of_Z n) w ->
  le zero (permits (sem w)) = true
  /\ le (permits (sem w)) (maxPermits (sem w)) = true
  /\ (forall me, gt (permits (sem w)) zero = false ->
        permits (after (acquire me (sem w))) = permits (sem w))
  /\ (lt (permits (sem w)) (maxPermits (sem w)) = false ->
        permits (after (release (sem w))) = permits (sem w)).
Proof.
  intros Hn Hr. unfold permits, maxPermits.
  assert (Hbounds : le zero (_permits (sem w)) = true
                    /\ le (_permits (sem w)) (_maxPermits (sem w)) = true).
  { destruct (of_Z_nonneg Hn) as [Hinf | (N & HN & Hb & HrN)].
    - rewrite Hinf in Hr.
      destruct (infinite_reachable Hr) as (Hp & _ & _).
      rewrite (capacity_reachable Hr), Hp. split; reflexivity.
    - rewrite HN in Hr.
      destruct (counted_reachable Hb HrN Hr) as (p & Hp & Hpb & _ & Hm & _).
      rewrite zero_int, Hp, Hm, !le_int. split; apply Z.leb_le; lia. }
  destruct Hbounds as [H1 H2].
  repeat split; auto.
  - intros me Hg. rewrite acquire_permits, Hg. reflexivity.
  - intros Hl. rewrite release_permits, Hl.
    destruct (waiting (sem w)); reflexivity.
Qed.

(** C2. After construction with an integer capacity [n >= 0], in every
    reachable world a non-empty wait queue comes with [permits == 0]. *)
Theorem queue_nonempty_no_permits (n : Z) (w : World) :
  (0 <= n)%Z ->
  reachable (of_Z n) w ->
  waiting (sem w) <> [] ->
  permits (sem w) = zero /\ eq (permits (sem w)) zero = true.
Proof.
  intros Hn Hr Hne. unfold permits.
  destruct (of_Z_nonneg Hn) as [Hinf | (N & HN & Hb & HrN)].
  - rewrite Hinf in Hr.
    destruct (infinite_reachable Hr) as (_ & Hw & _). congruence.
  - rewrite HN in Hr.
    destruct (counted_reachable Hb HrN Hr) as (p & Hp & _ & _ & _ & Hq).
    specialize (Hq Hne). subst p.
    rewrite Hp. split; reflexivity.
Qed.

(** C3. In a reachable world (integer capacity) whose queue is [r :: queue],
    a run of [release] completes normally, resolves [r] and nothing else,
    leaves [queue] as the new queue and leaves the counter where it was,
    at 0. *)
Theorem release_wakes_head_only (n : Z) (w : World)
        (r : resolver) (queue : list resolver) :
  (0 <= n)%Z ->
  reachable (of_Z n) w ->
  waiting (sem w) = r :: queue ->
  outcome (release (sem w)) = Normal tt
  /\ resolved_of (trace (release (sem w))) = [r]
  /\ waiting (after (release (sem w))) = queue
  /\ after (release (sem w)) = with_waiting queue (sem w)
  /\ permits (after (release (sem w))) = permits (sem w)
  /\ permits (sem w) = zero.
Proof.
  intros Hn Hr Hw.
  destruct (release_handoff (sem w) Hw) as (Ho & Ha & Ht).
  assert (Hne : waiting (sem w) <> []) by (rewrite Hw; discriminate).
  assert (Hz : _permits (sem w) = zero).
  { destruct (of_Z_nonneg Hn) as [Hinf | (N & HN & Hb & HrN)].
    - rewrite Hinf in Hr.
      destruct (infinite_reachable Hr) as (_ & Hw' & _). congruence.
    - rewrite HN in Hr.
      destruct (counted_reachable Hb HrN Hr) as (p & Hp & _ & _ & _ & Hq).
      specialize (Hq Hne). subst p. exact Hp. }
  rewrite Ha. repeat split; auto.
Qed.

Lemma permits_within_capacity_witness :
  le zero (permits (sem Demo.contended)) = true
  /\ le (permits (sem Demo.contended)) (maxPermits (sem Demo.contended)) = true
  /\ (forall me, gt (permits (sem Demo.contended)) zero = false ->
        permits (after (acquire me (sem Demo.contended)))
        = permits (sem Demo.contended))
  /\ (lt (permits (sem Demo.contended)) (maxPermits (sem Demo.contended))
      = false ->
        permits (after (release (sem Demo.contended)))
        = permits (sem Demo.contended)).
Proof.
  apply (@permits_within_capacity 2 Demo.contended).
  - lia.
  - exists no_opts, (Demo.fresh 2), Demo.three_acquires.
    split; reflexivity.
Defined.

Lemma queue_nonempty_no_permits_witness :
  waiting (sem Demo.contended) = [2]
  /\ permits (sem Demo.contended) = zero
  /\ eq (permits (sem Demo.contended)) zero = true.
Proof.
  split; [vm_compute; reflexivity |].
  apply (@queue_nonempty_no_permits 2 Demo.contended).
  - lia.
  - exists no_opts, (Demo.fresh 2), Demo.three_acquires.
    split; reflexivity.
  - vm_compute. discriminate.
Defined.

Lemma release_wakes_head_only_witness :
  outcome (release (sem Demo.three_queued)) = Normal tt
  /\ resolved_of (trace (release (sem Demo.three_queued))) = [2]
  /\ waiting (after (release (sem Demo.three_queued))) = [3; 4]
  /\ after (release (sem Demo.three_queued))
     = with_waiting [3; 4] (sem Demo.three_queued)
  /\ permits (after (release (sem Demo.three_queued)))
     = permits (sem Demo.three_queued)
  /\ permits (sem Demo.three_queued) = zero.
Proof.
  apply (@release_wakes_head_only 2 Demo.three_queued 2 [3; 4]).
  - lia.
  - exists no_opts, (Demo.fresh 2), Demo.five_acquires.
    split; reflexivity.
  - vm_compute. reflexivity.
Defined.

(* ------------------------------------------------------------------ *)
(** ** The two branches of [acquire] *)

(** A queued marker stays in the queue across every event, except the
    turn of a [release] that finds it at the head and completes its
    caller. *)
Lemma queued_until_released (w : World) (e : event) (c : resolver) :
  In c (waiting (sem w)) ->
  In c (waiting (sem (step e w)))
  \/ (exists k rest queue,
        e = Serve /\ _lock w = (k, Release) :: rest
        /\ waiting (sem w) = c :: queue
        /\ completed (step e w) = completed w ++ [(c, FromQueue)]).
Proof.
  intros Hin. destruct e as [o |]; simpl.
  - left. exact Hin.
  - destruct (serve_serves w) as
      [ _
      | _
      | c0 rest w' _ _ Hs _ _ _ _
      | c0 rest w' _ _ Hs _ _ _ _
      | c0 rest r queue w' Hc Hw Hs _ _ Hd _
      | c0 rest w' _ _ _ Hs _ _ _ _
      | c0 rest w' _ _ _ Hs _ _ _ _ ].
    + left. exact Hin.
    + left. exact Hin.
    + left. rewrite Hs. exact Hin.
    + left. rewrite Hs. simpl. apply in_or_app. left. exact Hin.
    + rewrite Hw in Hin. destruct Hin as [-> | Hin].
      * right. exists c0, rest, queue. auto.
      * left. rewrite Hs. exact Hin.
    + left. rewrite Hs. exact Hin.
    + left. rewrite Hs. exact Hin.
Qed.

(** C4, as the code has it.  On every object, [acquire] does one of two
    things.  With [permits > 0] it applies [permits--], queues nothing and
    returns; the counter is then the binary64 value nearest to
    [permits - 1], which is exactly one less whenever [permits] is an integer
    from 1 to 2^53.  With [permits == 0] it leaves the counter, appends its
    own marker at the tail of the queue and suspends; from then on the marker
    stays queued until the turn of a [release] resolves it. *)
Theorem acquire_two_branches (s : Semaphore) (me : resolver) :
  (gt (permits s) zero = true ->
     outcome (acquire me s) = Normal false
     /\ permits (after (acquire me s)) = dec (permits s)
     /\ (forall p : Z,
           (1 <= p <= 2 ^ 53)%Z -> permits s = int p ->
           permits (after (acquire me s)) = int (p - 1))
     /\ waiting (after (acquire me s)) = waiting s
     /\ after (acquire me s) = with_permits (dec (permits s)) s)
  /\ (eq (permits s) zero = true ->
     outcome (acquire me s) = Normal true
     /\ permits (after (acquire me s)) = permits s
     /\ waiting (after (acquire me s)) = waiting s ++ [me]
     /\ after (acquire me s) = with_waiting (waiting s ++ [me]) s
     /\ resolved_of (trace (acquire me s)) = []
     /\ forall (w : World) (e : event),
          In me (waiting (sem w)) ->
          In me (waiting (sem (step e w)))
          \/ (exists k rest queue,
                e = Serve /\ _lock w = (k, Release) :: rest
                /\ waiting (sem w) = me :: queue
                /\ completed (step e w) = completed w ++ [(me, FromQueue)])).
Proof.
  unfold permits. split.
  - intros Hg. destruct (acquire_granted s me Hg) as (Ho & Ha & _).
    rewrite Ha. repeat split; auto.
    intros p Hp E. cbn [_permits with_permits]. rewrite E.
    rewrite <- !of_Z_small by lia. apply dec_of_Z. lia.
  - intros He. apply eq_zero_not_gt in He.
    destruct (acquire_queued s me He) as (Ho & Ha & Ht).
    rewrite Ha. repeat split; auto.
    intros w e. apply queued_until_released.
Qed.

Lemma acquire_two_branches_witness :
  (outcome (acquire 0 (sem (Demo.fresh 2))) = Normal false
   /\ permits (after (acquire 0 (sem (Demo.fresh 2)))) = int 1)
  /\ (outcome (acquire 2 (sem Demo.contended)) = Normal true
      /\ waiting (after (acquire 2 (sem Demo.contended))) = [2; 2]).
Proof.
  split.
  - destruct (proj1 (acquire_two_branches (sem (Demo.fresh 2)) 0))
      as (Ho & _ & Hp & _).
    + vm_compute. reflexivity.
    + split; [exact Ho |]. apply (Hp 2%Z); [lia | vm_compute; reflexivity].
  - destruct (proj2 (acquire_two_branches (sem Demo.contended) 2))
      as (Ho & _ & Hw & _).
    + vm_compute. reflexivity.
    + split; [exact Ho | exact Hw].
Defined.

(** C4 as first stated, a decrement by one in every state with
    [permits > 0], fails where binary64 is coarser than 1: with
    [permits = 2^53 + 4] the acquire is granted and the counter stays at
    2^53 + 4, since 2^53 + 3 is a tie between 2^53 + 2 and 2^53 + 4 and goes
    to the even significand. *)
Lemma acquire_keeps_counter_above_2_53 :
  permits (sem (Demo.fresh (2 ^ 53 + 4))) = int (2 ^ 53 + 4)
  /\ gt (permits (sem (Demo.fresh (2 ^ 53 + 4)))) zero = true
  /\ outcome (acquire 0 (sem (Demo.fresh (2 ^ 53 + 4)))) = Normal false
  /\ permits (after (acquire 0 (sem (Demo.fresh (2 ^ 53 + 4)))))
     = int (2 ^ 53 + 4)
  /\ permits (after (acquire 0 (sem (Demo.fresh (2 ^ 53 + 4)))))
     <> int (2 ^ 53 + 4 - 1).
Proof.
  split; [vm_compute; reflexivity |].
  split; [vm_compute; reflexivity |].
  split; [vm_compute; reflexivity |].
  split; [vm_compute; reflexivity |].
  vm_compute. intros H. discriminate H.
Qed.

(* ------------------------------------------------------------------ *)
(** ** Over-release *)

(** C5. On every object with an empty queue and [permits == maxPermits],
    [release] completes normally, without throwing, and leaves the object
    exactly as it was. *)
Theorem over_release_is_absorbed (s : Semaphore) :
  waiting s = [] ->
  eq (permits s) (maxPermits s) = true ->
  outcome (release s) = Normal tt
  /\ after (release s) = s
  /\ permits (after (release s)) = permits s
  /\ waiting (after (release s)) = []
  /\ resolved_of (trace (release s)) = [].
Proof.
  unfold permits, maxPermits. intros Hw He.
  apply eq_not_lt in He.
  destruct (release_saturated s Hw He) as (Ho & Ha & Ht).
  rewrite Ha. repeat split; auto.
Qed.

Lemma over_release_is_absorbed_witness :
  outcome (release (sem (Demo.fresh 2))) = Normal tt
  /\ after (release (sem (Demo.fresh 2))) = sem (Demo.fresh 2)
  /\ permits (after (release (sem (Demo.fresh 2))))
     = permits (sem (Demo.fresh 2))
  /\ waiting (after (release (sem (Demo.fresh 2)))) = []
  /\ resolved_of (trace (release (sem (Demo.fresh 2)))) = [].
Proof.
  apply (over_release_is_absorbed (sem (Demo.fresh 2)));
    vm_compute; reflexivity.
Defined.

(* ------------------------------------------------------------------ *)
(** ** Construction *)

Section Construction.

Lemma le_zero_not_lt (c : number) : le zero c = true -> lt c zero = false.
Proof.
  rewrite zero_int. unfold int.
  destruct c as [x | | |]; simpl; try reflexivity; try discriminate.
  destruct (Qlt_le_dec x (inject_Z 0)); [discriminate | reflexivity].
Qed.

Lemma constructor_rejects (c : number) (opts : SemaphoreOpts) :
  lt c zero = true ->
  constructor c opts =
    Throw (Error
      "Semaphore must be initialized with a non-negative number of permits.").
Proof. intros H. unfold constructor. rewrite H. reflexivity. Qed.

Lemma constructor_accepts (c : number) (opts : SemaphoreOpts) :
  lt c zero = false ->
  exists (s : Semaphore) (t : list action),
    constructor c opts = Normal (s, t)
    /\ _permits s = c /\ _maxPermits s = c /\ waiting s = [].
Proof.
  intros H. unfold constructor. rewrite H.
  eexists. eexists. split; [reflexivity |]. simpl. auto.
Qed.

Lemma three_halves_not_integer : ~ is_integer (Fin (3 # 2)).
Proof.
  intros [z Hz].
  destruct (of_Z_shape z) as [E | [E | [v E]]]; rewrite E in Hz;
    [discriminate | discriminate |].
  clear E z. rename v into z. unfold eq, le, int in Hz.
  apply andb_prop in Hz. destruct Hz as [H1 H2].
  destruct (Qlt_le_dec (inject_Z z) (3 # 2)) as [_ | H3]; [discriminate |].
  destruct (Qlt_le_dec (3 # 2) (inject_Z z)) as [_ | H4]; [discriminate |].
  unfold Qle in H3, H4. simpl in H3, H4. lia.
Qed.

End Construction.

(** C6. A negative capacity makes the constructor throw its error and
    yields no instance; a capacity [>= 0], 0 included, yields an instance
    with [permits = maxPermits =] that capacity and an empty queue; and with
    capacity 0 every run of [acquire], in every reachable world, queues its
    caller, so that only a release completes an acquire. *)
Theorem construction_validates_sign (c : number) (opts : SemaphoreOpts) :
  (lt c zero = true ->
     constructor c opts =
       Throw (Error
         "Semaphore must be initialized with a non-negative number of permits.")
     /\ new_world c opts =
       Throw (Error
         "Semaphore must be initialized with a non-negative number of permits."))
  /\ (le zero c = true ->
     exists (s : Semaphore) (t : list action),
       constructor c opts = Normal (s, t)
       /\ permits s = c /\ maxPermits s = c /\ waiting s = [])
  /\ (forall w : World, reachable zero w ->
        (forall me : resolver,
           outcome (acquire me (sem w)) = Normal true
           /\ waiting (after (acquire me (sem w))) = waiting (sem w) ++ [me])
        /\ (forall (k : callid) (g : grant),
              In (k, g) (completed w) -> g = FromQueue)).
Proof.
  split; [| split].
  - intros H. unfold new_world. rewrite (@constructor_rejects c opts H). auto.
  - intros H. apply constructor_accepts. apply le_zero_not_lt. exact H.
  - assert (Hz : forall s, counted 0 s -> gt (_permits s) zero = false).
    { intros s (p & Hp & Hb & _).
      rewrite Hp. unfold gt. rewrite zero_int, lt_int. apply Z.ltb_ge. lia. }
    assert (H0 : (0 <= 0 < top)%Z) by (pose proof top_above_safe; lia).
    assert (Hr0 : nearest 0 = 0%Z) by (apply nearest_small; lia).
    change zero with (int 0).
    intros w Hr. split.
    + intros me.
      assert (Hc : counted 0 (sem w)) by (apply counted_reachable; auto).
      change (int 0) with zero in Hz.
      destruct (acquire_queued (sem w) me (Hz _ Hc)) as (Ho & Ha & _).
      rewrite Ha. auto.
    + revert w Hr. apply (@reachable_ind (int 0) (fun w =>
        counted 0 (sem w)
        /\ forall k g, In (k, g) (completed w) -> g = FromQueue)).
      * intros o w0 H. split.
        -- eapply counted_new; [lia | exact Hr0 | exact H].
        -- apply new_world_inv in H. destruct H as (_ & _ & _ & _ & _ & Hd & _).
           rewrite Hd. intros k g [].
      * intros w o H. exact H.
      * intros w w' [Hc Hq] Hstep.
        split; [eapply counted_serves; eauto |].
        pose proof (Hz _ Hc) as Hg.
        destruct Hstep as
          [ _
          | _
          | c0 rest w' _ Hg' _ _ _ _ _
          | c0 rest w' _ _ _ _ _ Hd _
          | c0 rest r queue w' _ _ _ _ _ Hd _
          | c0 rest w' _ _ _ _ _ _ Hd _
          | c0 rest w' _ _ _ _ _ _ Hd _ ];
          try (rewrite Hd); auto.
        -- congruence.
        -- intros k g Hin. apply in_app_or in Hin. destruct Hin as [Hin | Hin].
           ++ eapply Hq; eauto.
           ++ destruct Hin as [Heq | []]. congruence.
Qed.

Lemma construction_validates_sign_witness :
  constructor (of_Z (-1)) no_opts =
    Throw (Error
      "Semaphore must be initialized with a non-negative number of permits.")
  /\ (exists (s : Semaphore) (t : list action),
        constructor zero no_opts = Normal (s, t)
        /\ permits s = zero /\ maxPermits s = zero /\ waiting s = [])
  /\ outcome (acquire 0 (sem (Demo.fresh 0))) = Normal true.
Proof.
  destruct (construction_validates_sign (of_Z (-1)) no_opts) as (H1 & _ & _).
  destruct (construction_validates_sign zero no_opts) as (_ & H2 & H3).
  split; [apply H1; vm_compute; reflexivity |].
  split; [apply H2; vm_compute; reflexivity |].
  apply (H3 (Demo.fresh 0)).
  exists no_opts, (Demo.fresh 0), []. split; reflexivity.
Defined.

(* ------------------------------------------------------------------ *)
(** ** Conservation *)

Section CallOrder.

(** One turn with the lock free runs the oldest call of the chain on the
    object, and frees the lock again. *)
Lemma serve_exec (w : World) (co : callid * op) (rest : list (callid * op)) :
  held w = false ->
  _lock w = co :: rest ->
  sem (serve w) = exec co (sem w)
  /\ _lock (serve w) = rest
  /\ next_call (serve w) = next_call w
  /\ held (serve w) = false.
Proof.
  intros Hh Hc. unfold serve, exec. rewrite Hh, Hc.
  destruct co as [c o]. destruct o; cbn [fst snd].
  - cbn [sem _lock next_call held].
    rewrite acquire_releases_lock. auto.
  - pose proof (resume_after (after (release (sem w)))
                  (resolved_of (trace (release (sem w))))) as Hs.
    destruct (resume (resolved_of (trace (release (sem w))))
                (after (release (sem w)))) as [s2 t2].
    cbn [sem _lock next_call held]. simpl in Hs.
    rewrite release_releases_lock. auto.
Qed.

(** Whatever the schedule, the calls take their turns in the order they
    were issued: the object is what the calls served so far, run one
    after the other, make of it. *)
Lemma run_in_call_order (es : list event) :
  forall w : World,
    held w = false ->
    exists done : list (callid * op),
      _lock w ++ issued es (next_call w) = done ++ _lock (run es w)
      /\ sem (run es w) = exec_all done (sem w).
Proof.
  induction es as [| e es IH]; intros w Hh.
  - exists []. simpl. rewrite app_nil_r. auto.
  - destruct e as [o |].
    + destruct (IH (call o w) Hh) as (done & Hd & Hs).
      exists done.
      change (run (Call o :: es) w) with (run es (call o w)).
      split; [| exact Hs].
      rewrite <- Hd. simpl. rewrite <- app_assoc. reflexivity.
    + change (run (Serve :: es) w) with (run es (serve w)).
      change (issued (Serve :: es) (next_call w))
        with (issued es (next_call w)).
      destruct (_lock w) as [| co rest] eqn:Hc.
      * assert (Hw : serve w = w) by (unfold serve; rewrite Hh, Hc; reflexivity).
        destruct (IH w Hh) as (done & Hd & Hs).
        exists done. rewrite Hw. rewrite Hc in Hd. auto.
      * destruct (serve_exec w Hh Hc) as (Hs1 & Hc1 & Hn1 & Hh1).
        destruct (IH (serve w) Hh1) as (done & Hd & Hs).
        exists (co :: done).
        rewrite Hc1, Hn1 in Hd. rewrite Hs1 in Hs.
        split; [| exact Hs].
        simpl. rewrite Hd. reflexivity.
Qed.

Variable n : Z.
Hypothesis n_safe : (n <= 2 ^ 53)%Z.

Lemma exec_acquire_at_rest (p : Z) (c : callid) (s : Semaphore) :
  at_rest p n s -> (0 < p <= n)%Z -> at_rest (p - 1) n (exec (c, Acquire) s).
Proof.
  intros (Hw & Hp & Hm) Hpos.
  assert (Hg : gt (_permits s) zero = true).
  { rewrite Hp. unfold gt, zero. rewrite lt_of_Z by lia.
    apply Z.ltb_lt. lia. }
  destruct (acquire_granted s c Hg) as (_ & Ha & _).
  unfold at_rest, exec. cbn [fst snd]. rewrite Ha. simpl.
  rewrite Hp, dec_of_Z by lia. auto.
Qed.

Lemma exec_release_at_rest (p : Z) (c : callid) (s : Semaphore) :
  at_rest p n s -> (0 <= p < n)%Z -> at_rest (p + 1) n (exec (c, Release) s).
Proof.
  intros (Hw & Hp & Hm) Hlt.
  assert (Hl : lt (_permits s) (_maxPermits s) = true).
  { rewrite Hp, Hm, lt_of_Z by lia. apply Z.ltb_lt. lia. }
  destruct (release_increment s Hw Hl) as (_ & Ha & _).
  unfold at_rest, exec. cbn [fst snd]. rewrite Ha. simpl.
  rewrite Hp, inc_of_Z by lia. auto.
Qed.

Lemma exec_all_acquires (k : nat) :
  forall (l : list (callid * op)) (p : Z) (s : Semaphore),
    map snd l = repeat Acquire k ->
    at_rest p n s -> (Z.of_nat k <= p <= n)%Z ->
    at_rest (p - Z.of_nat k) n (exec_all l s).
Proof.
  induction k as [| k IH]; intros l p s Hl Hs Hk.
  - destruct l; [| discriminate].
    simpl. replace (p - 0)%Z with p by lia. exact Hs.
  - destruct l as [| [c o] l]; [discriminate |].
    simpl in Hl. injection Hl as -> Hl.
    replace (p - Z.of_nat (S k))%Z with (p - 1 - Z.of_nat k)%Z by lia.
    cbn [exec_all fold_left]. apply IH; [exact Hl | | lia].
    apply exec_acquire_at_rest; [exact Hs | lia].
Qed.

Lemma exec_all_releases (k : nat) :
  forall (l : list (callid * op)) (p : Z) (s : Semaphore),
    map snd l = repeat Release k ->
    at_rest p n s -> (0 <= p)%Z -> (p + Z.of_nat k <= n)%Z ->
    at_rest (p + Z.of_nat k) n (exec_all l s).
Proof.
  induction k as [| k IH]; intros l p s Hl Hs Hp Hk.
  - destruct l; [| discriminate].
    simpl. replace (p + 0)%Z with p by lia. exact Hs.
  - destruct l as [| [c o] l]; [discriminate |].
    simpl in Hl. injection Hl as -> Hl.
    replace (p + Z.of_nat (S k))%Z with (p + 1 + Z.of_nat k)%Z by lia.
    cbn [exec_all fold_left]. apply IH; [exact Hl | | lia | lia].
    apply exec_release_at_rest; [exact Hs | lia].
Qed.

End CallOrder.

(** C7, as the code has it.  For an integer capacity [0 <= n <= 2^53] and
    [k <= n]: take any schedule on the fresh instance that issues [k]
    acquires and then [k] releases and lets every call have its turn.  The
    [k] acquires are all granted (after them [n - k] permits remain and
    nobody is queued), and at the end [permits] is back at [n] with the queue
    empty. *)
Theorem acquire_release_round_trip
        (n : Z) (k : nat) (opts : SemaphoreOpts) (w0 : World)
        (es : list event) :
  (0 <= n <= 2 ^ 53)%Z ->
  (Z.of_nat k <= n)%Z ->
  new_world (of_Z n) opts = Normal w0 ->
  map snd (issued es 0) = repeat Acquire k ++ repeat Release k ->
  _lock (run es w0) = [] ->
  permits (sem (run es w0)) = of_Z n
  /\ waiting (sem (run es w0)) = []
  /\ permits (exec_all (firstn k (issued es 0)) (sem w0))
     = of_Z (n - Z.of_nat k)
  /\ waiting (exec_all (firstn k (issued es 0)) (sem w0)) = [].
Proof.
  intros Hn Hk Hnew Hcalls Hdone.
  apply new_world_inv in Hnew.
  destruct Hnew as (_ & Hp & Hm & Hw & Hc & _ & _ & Hnext & Hh).
  destruct (run_in_call_order es w0 Hh) as (done & Hd & Hs).
  rewrite Hc, Hnext, Hdone, app_nil_r in Hd. simpl in Hd. subst done.
  apply map_eq_app in Hcalls. destruct Hcalls as (l1 & l2 & Hl & H1 & H2).
  assert (Hlen : List.length l1 = k).
  { rewrite <- (length_map snd), H1. apply repeat_length. }
  assert (Hfirst : firstn k (issued es 0) = l1).
  { rewrite Hl, <- Hlen. rewrite firstn_app, Nat.sub_diag, firstn_all.
    simpl. apply app_nil_r. }
  assert (Hsafe : (n <= 2 ^ 53)%Z) by lia.
  assert (H0 : at_rest n n (sem w0)) by (unfold at_rest; auto).
  assert (Ha : at_rest (n - Z.of_nat k) n (exec_all l1 (sem w0)))
    by (apply (@exec_all_acquires n Hsafe k l1 n (sem w0) H1 H0); lia).
  assert (Hr : at_rest (n - Z.of_nat k + Z.of_nat k) n
                 (exec_all l2 (exec_all l1 (sem w0))))
    by (apply (@exec_all_releases n Hsafe k l2 _ _ H2 Ha); lia).
  replace (n - Z.of_nat k + Z.of_nat k)%Z with n in Hr by lia.
  rewrite Hs, Hfirst, Hl. unfold exec_all at 1 2. rewrite fold_left_app.
  fold (exec_all l1 (sem w0)). fold (exec_all l2 (exec_all l1 (sem w0))).
  destruct Ha as (Hw1 & Hp1 & _). destruct Hr as (Hw2 & Hp2 & _).
  unfold permits. auto.
Qed.

Lemma acquire_release_round_trip_witness :
  permits (sem (run Demo.two_in_two_out (Demo.fresh 3))) = of_Z 3
  /\ waiting (sem (run Demo.two_in_two_out (Demo.fresh 3))) = []
  /\ permits (exec_all (firstn 2 (issued Demo.two_in_two_out 0))
                (sem (Demo.fresh 3)))
     = of_Z (3 - Z.of_nat 2)
  /\ waiting (exec_all (firstn 2 (issued Demo.two_in_two_out 0))
                (sem (Demo.fresh 3))) = [].
Proof.
  apply (@acquire_release_round_trip 3 2 no_opts (Demo.fresh 3)
           Demo.two_in_two_out).
  - lia.
  - simpl. lia.
  - reflexivity.
  - reflexivity.
  - vm_compute. reflexivity.
Defined.

(** C7 as first stated, for every [N >= 0], fails where binary64 stops
    holding every integer: from capacity 2^53 + 2, one acquire leaves 2^53
    (2^53 + 1 is a tie and rounds to the even significand) and the release
    after it leaves 2^53 again. *)
Lemma round_trip_lost_above_2_53 :
  (0 <= 2 ^ 53 + 2)%Z
  /\ (Z.of_nat 1 <= 2 ^ 53 + 2)%Z
  /\ new_world (of_Z (2 ^ 53 + 2)) no_opts = Normal (Demo.fresh (2 ^ 53 + 2))
  /\ map snd (issued Demo.one_in_one_out 0)
     = repeat Acquire 1 ++ repeat Release 1
  /\ _lock (run Demo.one_in_one_out (Demo.fresh (2 ^ 53 + 2))) = []
  /\ permits (sem (run Demo.one_in_one_out (Demo.fresh (2 ^ 53 + 2))))
     = of_Z (2 ^ 53)
  /\ permits (sem (run Demo.one_in_one_out (Demo.fresh (2 ^ 53 + 2))))
     <> of_Z (2 ^ 53 + 2).
Proof.
  split; [lia |]. split; [lia |].
  split; [vm_compute; reflexivity |].
  split; [reflexivity |].
  split; [vm_compute; reflexivity |].
  split; [vm_compute; reflexivity |].
  vm_compute. intros H. discriminate H.
Qed.

(* ------------------------------------------------------------------ *)
(** ** First in, first out *)

Section Fifo.

Lemma sorted_app_right (l1 l2 : list nat) :
  StronglySorted Nat.lt (l1 ++ l2) -> StronglySorted Nat.lt l2.
Proof.
  induction l1 as [| a l1 IH]; simpl; intros H; [exact H |].
  apply StronglySorted_inv in H. tauto.
Qed.

Lemma from_queue_incl (l : list (callid * grant)) (i : callid) :
  In i (from_queue l) -> In i (order l).
Proof.
  unfold from_queue, order. intros H.
  apply in_map_iff in H. destruct H as (x & Hx & Hin).
  apply filter_In in Hin. apply in_map_iff. exists x. tauto.
Qed.

Lemma sorted_from_queue (l : list (callid * grant)) (q : list callid) :
  StronglySorted Nat.lt (order l ++ q) ->
  StronglySorted Nat.lt (from_queue l ++ q).
Proof.
  induction l as [| [i g] l IH]; intros H; [exact H |].
  change (order ((i, g) :: l) ++ q) with (i :: (order l ++ q)) in H.
  apply StronglySorted_inv in H. destruct H as [Hs Hf].
  destruct g.
  - change (from_queue ((i, Immediate) :: l)) with (from_queue l).
    apply IH. exact Hs.
  - change (from_queue ((i, FromQueue) :: l) ++ q)
      with (i :: (from_queue l ++ q)).
    constructor; [apply IH; exact Hs |].
    apply Forall_app in Hf. destruct Hf as [Hf1 Hf2].
    apply Forall_app. split; [| exact Hf2].
    apply Forall_forall. intros y Hy.
    rewrite Forall_forall in Hf1. apply Hf1. apply from_queue_incl. exact Hy.
Qed.

Lemma reachable_step (c : number) (w : World) (e : event) :
  reachable c w -> reachable c (step e w).
Proof.
  intros (opts & w0 & es & Hnew & ->).
  exists opts, w0, (es ++ [e]). split; [exact Hnew |].
  unfold run. rewrite fold_left_app. reflexivity.
Qed.

End Fifo.

(** C8. Whatever the capacity, in every reachable world the acquires
    that have returned, the queued ones and the calls not yet served are,
    in this order, in the order the calls were issued.  So the acquires
    completed through the queue completed in issue order, each of them was
    issued before every acquire still queued, a [release] that finds
    [r :: queue] completes [r], the oldest, and leaves [queue], all issued
    later, and an [acquire] that finds no permit joins the queue at its
    tail. *)
Theorem fifo_completion_order (c : number) (w : World) :
  reachable c w ->
  StronglySorted Nat.lt (order (completed w) ++ waiting (sem w) ++ chain_ids w)
  /\ StronglySorted Nat.lt (from_queue (completed w) ++ waiting (sem w))
  /\ (forall k rest r queue,
        _lock w = (k, Release) :: rest ->
        waiting (sem w) = r :: queue ->
        completed (serve w) = completed w ++ [(r, FromQueue)]
        /\ waiting (sem (serve w)) = queue
        /\ Forall (fun later => r < later) queue)
  /\ (forall k rest,
        _lock w = (k, Acquire) :: rest ->
        gt (permits (sem w)) zero = false ->
        completed (serve w) = completed w
        /\ waiting (sem (serve w)) = waiting (sem w) ++ [k]).
Proof.
  intros Hr.
  pose proof (lock_free_reachable Hr) as Hh.
  destruct (served_reachable Hr) as [_ [Hs _]]. unfold timeline in Hs.
  split; [exact Hs |].
  assert (Hq : StronglySorted Nat.lt (order (completed w) ++ waiting (sem w))).
  { rewrite app_assoc in Hs. eapply sorted_app_left. exact Hs. }
  split; [apply sorted_from_queue; exact Hq |].
  split.
  - intros k rest r queue Hc Hw.
    destruct (serve_serves w) as
      [ Hb
      | Hn
      | c0 rest0 w' Hc' _ _ _ _ _ _
      | c0 rest0 w' Hc' _ _ _ _ _ _
      | c0 rest0 r0 queue0 w' _ Hw' Hsem _ _ Hd _
      | c0 rest0 w' _ Hw' _ _ _ _ _ _
      | c0 rest0 w' _ Hw' _ _ _ _ _ _ ];
      try congruence.
    rewrite Hw in Hw'. injection Hw' as <- <-.
    rewrite Hsem, Hd. simpl. repeat split.
    apply sorted_app_right in Hq. rewrite Hw in Hq.
    apply StronglySorted_inv in Hq. tauto.
  - intros k rest Hc Hg. unfold permits in Hg.
    destruct (serve_serves w) as
      [ Hb
      | Hn
      | c0 rest0 w' _ Hg' _ _ _ _ _
      | c0 rest0 w' Hc' _ Hsem _ _ Hd _
      | c0 rest0 r0 queue0 w' Hc' _ _ _ _ _ _
      | c0 rest0 w' Hc' _ _ _ _ _ _ _
      | c0 rest0 w' Hc' _ _ _ _ _ _ _ ];
      try congruence.
    rewrite Hc in Hc'. injection Hc' as <- <-.
    rewrite Hsem, Hd. simpl. auto.
Qed.

Lemma fifo_completion_order_witness :
  StronglySorted Nat.lt
    (order (completed Demo.release_due) ++ waiting (sem Demo.release_due)
     ++ chain_ids Demo.release_due)
  /\ completed (serve Demo.release_due)
     = completed Demo.release_due ++ [(2, FromQueue)]
  /\ waiting (sem (serve Demo.release_due)) = [3; 4]
  /\ Forall (fun later => 2 < later) [3; 4].
Proof.
  assert (Hr : reachable (of_Z 2) Demo.release_due).
  { exists no_opts, (Demo.fresh 2), (Demo.five_acquires ++ [Call Release]).
    split; vm_compute; reflexivity. }
  destruct (fifo_completion_order Hr) as (H1 & _ & H3 & _).
  split; [exact H1 |].
  apply (H3 5 [] 2 [3; 4]); vm_compute; reflexivity.
Defined.

(** The second scenario of the documentation: capacity 2, both permits
    taken, [p1], [p2], [p3] queued (calls 2, 3, 4); three releases complete
    them in that order and leave [permits] at 0. *)
Example scenario_three_queued :
  order (completed (repeat_op 3 Release Demo.three_queued)) = [0; 1; 2; 3; 4]
  /\ from_queue (completed (repeat_op 3 Release Demo.three_queued)) = [2; 3; 4]
  /\ permits (sem (repeat_op 3 Release Demo.three_queued)) = zero
  /\ waiting (sem (repeat_op 3 Release Demo.three_queued)) = [].
Proof. vm_compute. repeat split. Qed.

(* ------------------------------------------------------------------ *)
(** ** The capacity *)

(** C9. In every reachable world [maxPermits] is the capacity given to
    the constructor, and it still is after any further call, turn, or
    run of [acquire] or [release]; the two getters are functions of the
    object and change nothing. *)
Theorem maxPermits_never_changes (c : number) (w : World) :
  reachable c w ->
  maxPermits (sem w) = c
  /\ (forall me, maxPermits (after (acquire me (sem w))) = c)
  /\ maxPermits (after (release (sem w))) = c
  /\ (forall e, maxPermits (sem (step e w)) = c).
Proof.
  intros Hr. unfold maxPermits.
  pose proof (capacity_reachable Hr) as Hm.
  repeat split.
  - exact Hm.
  - intros me. rewrite acquire_capacity. exact Hm.
  - rewrite release_capacity. exact Hm.
  - intros e. apply capacity_reachable. apply reachable_step. exact Hr.
Qed.

Lemma maxPermits_never_changes_witness :
  maxPermits (sem Demo.contended) = of_Z 2
  /\ (forall me, maxPermits (after (acquire me (sem Demo.contended))) = of_Z 2)
  /\ maxPermits (after (release (sem Demo.contended))) = of_Z 2
  /\ (forall e, maxPermits (sem (step e Demo.contended)) = of_Z 2).
Proof.
  apply (@maxPermits_never_changes (of_Z 2) Demo.contended).
  exists no_opts, (Demo.fresh 2), Demo.three_acquires. split; reflexivity.
Defined.

(* ------------------------------------------------------------------ *)
(** ** What the constructor checks *)

(** C10. The constructor throws exactly when [permits < 0]; every capacity
    [>= 0] is accepted and stored in both [_permits] and [_maxPermits],
    whether an integer or not: 1.5 is not an integer and is accepted. *)
Theorem constructor_checks_sign_only (c : number) (opts : SemaphoreOpts) :
  ((exists e, constructor c opts = Throw e) <-> lt c zero = true)
  /\ (le zero c = true ->
      exists (s : Semaphore) (t : list action),
        constructor c opts = Normal (s, t)
        /\ permits s = c /\ maxPermits s = c)
  /\ (~ is_integer (Fin (3 # 2))
      /\ le zero (Fin (3 # 2)) = true
      /\ exists (s : Semaphore) (t : list action),
           constructor (Fin (3 # 2)) opts = Normal (s, t)
           /\ permits s = Fin (3 # 2) /\ maxPermits s = Fin (3 # 2)).
Proof.
  split; [| split].
  - split.
    + intros [e He]. destruct (lt c zero) eqn:Hl; [reflexivity |].
      destruct (@constructor_accepts c opts Hl) as (s & t & Hs & _).
      congruence.
    + intros Hl. eexists. apply constructor_rejects. exact Hl.
  - intros Hle. apply le_zero_not_lt in Hle.
    destruct (@constructor_accepts c opts Hle) as (s & t & Hs & Hp & Hm & _).
    exists s, t. auto.
  - split; [exact three_halves_not_integer |]. split; [reflexivity |].
    destruct (@constructor_accepts (Fin (3 # 2)) opts eq_refl)
      as (s & t & Hs & Hp & Hm & _).
    exists s, t. auto.
Qed.

Lemma constructor_checks_sign_only_witness :
  exists (s : Semaphore) (t : list action),
    constructor (Fin (1 # 4)) no_opts = Normal (s, t)
    /\ permits s = Fin (1 # 4) /\ maxPermits s = Fin (1 # 4).
Proof.
  apply (proj1 (proj2 (constructor_checks_sign_only (Fin (1 # 4)) no_opts))).
  vm_compute. reflexivity.
Defined.

(* ------------------------------------------------------------------ *)
(** ** Beyond integer capacities *)

(** The bounds on the counter rest on the capacity being an integer: from
    1.5 two acquires are granted and leave [permits] at -0.5. *)
Remark fractional_capacity_goes_negative :
  reachable (Fin (3 # 2)) Demo.fractional_twice
  /\ permits (sem Demo.fractional_twice) = Fin (-1 # 2)
  /\ lt (permits (sem Demo.fractional_twice)) zero = true
  /\ order (completed Demo.fractional_twice) = [0; 1].
Proof.
  split.
  - exists no_opts, Demo.fractional,
      [Call Acquire; Serve; Call Acquire; Serve].
    split; vm_compute; reflexivity.
  - vm_compute. repeat split.
Qed.

(* ------------------------------------------------------------------ *)
(** ** The lock chain: order, progress, no exception *)

Section LockChain.

Lemma reachable_run (c : number) (opts : SemaphoreOpts) (w0 : World)
      (es : list event) :
  new_world c opts = Normal w0 -> reachable c (run es w0).
Proof. intros H. exists opts, w0, es. auto. Qed.

Lemma run_app (es1 es2 : list event) (w : World) :
  run (es1 ++ es2) w = run es2 (run es1 w).
Proof. unfold run. apply fold_left_app. Qed.

Lemma served_by_app (es1 es2 : list event) :
  forall w : World,
    served_by (es1 ++ es2) w = served_by es1 w ++ served_by es2 (run es1 w).
Proof.
  induction es1 as [| e es1 IH]; intros w; [reflexivity |].
  destruct e as [o |]; simpl.
  - apply IH.
  - rewrite IH, app_assoc. reflexivity.
Qed.

Lemma serve_next_call (w : World) : next_call (serve w) = next_call w.
Proof. destruct (serve_serves w); auto. Qed.

Lemma issued_ids (es : list event) :
  forall c : callid,
    map fst (issued es c) = seq c (List.length (issued es c)).
Proof.
  induction es as [| e es IH]; intros c; [reflexivity |].
  destruct e as [o |]; simpl; [| apply IH].
  rewrite IH. reflexivity.
Qed.

Lemma issued_length_shift (es : list event) :
  forall c c' : callid,
    List.length (issued es c) = List.length (issued es c').
Proof.
  induction es as [| e es IH]; intros c c'; [reflexivity |].
  destruct e as [o |]; simpl; [f_equal |]; apply IH.
Qed.

Lemma run_next_call (es : list event) :
  forall w : World,
    next_call (run es w) = next_call w + List.length (issued es (next_call w)).
Proof.
  induction es as [| e es IH]; intros w.
  - simpl. lia.
  - destruct e as [o |].
    + change (run (Call o :: es) w) with (run es (call o w)).
      rewrite IH. simpl. lia.
    + change (run (Serve :: es) w) with (run es (serve w)).
      rewrite IH, serve_next_call. reflexivity.
Qed.

(** The schedule decides only when a call has its turn, not which: the
    calls served are the oldest issued ones, in issue order, and the object
    is what they make of it one after the other. *)
Lemma run_served_by (es : list event) :
  forall w : World,
    held w = false ->
    _lock w ++ issued es (next_call w) = served_by es w ++ _lock (run es w)
    /\ sem (run es w) = exec_all (served_by es w) (sem w).
Proof.
  induction es as [| e es IH]; intros w Hh.
  - simpl. rewrite app_nil_r. auto.
  - destruct e as [o |].
    + destruct (IH (call o w) Hh) as (Hd & Hs).
      change (run (Call o :: es) w) with (run es (call o w)).
      change (served_by (Call o :: es) w) with (served_by es (call o w)).
      split; [| exact Hs].
      rewrite <- Hd. simpl. rewrite <- app_assoc. reflexivity.
    + change (run (Serve :: es) w) with (run es (serve w)).
      change (issued (Serve :: es) (next_call w))
        with (issued es (next_call w)).
      cbn [served_by]. rewrite Hh.
      destruct (_lock w) as [| co rest] eqn:Hc.
      * assert (Hw : serve w = w) by (unfold serve; rewrite Hh, Hc; reflexivity).
        rewrite Hw. destruct (IH w Hh) as (Hd & Hs).
        rewrite Hc in Hd. auto.
      * destruct (serve_exec w Hh Hc) as (Hs1 & Hc1 & Hn1 & Hh1).
        destruct (IH (serve w) Hh1) as (Hd & Hs).
        rewrite Hc1, Hn1 in Hd. rewrite Hs1 in Hs.
        split; [| exact Hs].
        simpl. rewrite Hd. reflexivity.
Qed.

Lemma drain (k : nat) :
  forall w : World,
    held w = false -> List.length (_lock w) = k ->
    _lock (run (repeat Serve k) w) = []
    /\ held (run (repeat Serve k) w) = false
    /\ sem (run (repeat Serve k) w) = exec_all (_lock w) (sem w).
Proof.
  induction k as [| k IH]; intros w Hh Hl.
  - change (run (repeat Serve 0) w) with w.
    destruct (_lock w) eqn:Hc; [auto | discriminate].
  - destruct (_lock w) as [| co rest] eqn:Hc; [discriminate |].
    destruct (serve_exec w Hh Hc) as (Hs1 & Hc1 & _ & Hh1).
    change (run (repeat Serve (S k)) w) with (run (repeat Serve k) (serve w)).
    destruct (IH (serve w) Hh1) as (H1 & H2 & H3).
    { rewrite Hc1. simpl in Hl. lia. }
    rewrite H3, Hc1, Hs1. auto.
Qed.

Lemma acquire_never_throws (s : Semaphore) (me : resolver) :
  outcome (acquire me s) = Normal (negb (gt (_permits s) zero)).
Proof.
  destruct (gt (_permits s) zero) eqn:Hg.
  - destruct (acquire_granted s me Hg) as (H & _). exact H.
  - destruct (acquire_queued s me Hg) as (H & _). exact H.
Qed.

End LockChain.

(** X2. In every reachable world the lock is free between turns, and
    giving as many turns as there are calls on the chain serves them all:
    the chain ends empty, the lock free, and the object is what those calls
    make of it in chain order. *)
Theorem every_call_gets_its_turn (c : number) (w : World) :
  reachable c w ->
  held w = false
  /\ _lock (run (repeat Serve (List.length (_lock w))) w) = []
  /\ held (run (repeat Serve (List.length (_lock w))) w) = false
  /\ sem (run (repeat Serve (List.length (_lock w))) w)
     = exec_all (_lock w) (sem w).
Proof.
  intros Hr. pose proof (lock_free_reachable Hr) as Hh.
  split; [exact Hh |]. apply drain; auto.
Qed.

Lemma every_call_gets_its_turn_witness :
  held Demo.release_due = false
  /\ _lock (run (repeat Serve (List.length (_lock Demo.release_due)))
             Demo.release_due) = []
  /\ held (run (repeat Serve (List.length (_lock Demo.release_due)))
             Demo.release_due) = false
  /\ sem (run (repeat Serve (List.length (_lock Demo.release_due)))
            Demo.release_due)
     = exec_all (_lock Demo.release_due) (sem Demo.release_due).
Proof.
  apply (@every_call_gets_its_turn (of_Z 2) Demo.release_due).
  exists no_opts, (Demo.fresh 2), (Demo.five_acquires ++ [Call Release]).
  split; vm_compute; reflexivity.
Defined.

(** X3. Neither method throws, on any object: [acquire] returns or
    suspends, [release] returns, also when it is an over-release; so in
    every reachable world no call has been rejected. *)
Theorem no_call_is_rejected (c : number) (w : World) :
  reachable c w ->
  rejected w = []
  /\ (forall (s : Semaphore) (me : resolver),
        outcome (acquire me s) = Normal (negb (gt (permits s) zero)))
  /\ (forall s : Semaphore, outcome (release s) = Normal tt).
Proof.
  intros Hr. split; [exact (quiet_reachable Hr) |].
  split; [intros s me; apply acquire_never_throws |].
  intros s. apply release_never_throws.
Qed.

Lemma no_call_is_rejected_witness :
  rejected Demo.contended = []
  /\ (forall (s : Semaphore) (me : resolver),
        outcome (acquire me s) = Normal (negb (gt (permits s) zero)))
  /\ (forall s : Semaphore, outcome (release s) = Normal tt).
Proof.
  apply (@no_call_is_rejected (of_Z 2) Demo.contended).
  exists no_opts, (Demo.fresh 2), Demo.three_acquires. split; reflexivity.
Defined.

(* ------------------------------------------------------------------ *)
(** ** Accounting: who returned, who waits, how many hold a permit *)

Section Accounting.

Lemma served_by_serve (w : World) :
  held w = false ->
  served_by [Serve] w = match _lock w with
                        | [] => []
                        | co :: _ => [co]
                        end.
Proof. intros Hh. simpl. rewrite Hh. apply app_nil_r. Qed.

Lemma acquires_of_app (l1 l2 : list (callid * op)) :
  acquires_of (l1 ++ l2) = acquires_of l1 ++ acquires_of l2.
Proof. unfold acquires_of. rewrite filter_app, map_app. reflexivity. Qed.

Lemma releases_of_app (l1 l2 : list (callid * op)) :
  releases_of (l1 ++ l2) = releases_of l1 + releases_of l2.
Proof. unfold releases_of. rewrite filter_app, length_app. reflexivity. Qed.

Lemma from_queue_app (l1 l2 : list (callid * grant)) :
  from_queue (l1 ++ l2) = from_queue l1 ++ from_queue l2.
Proof. unfold from_queue. rewrite filter_app, map_app. reflexivity. Qed.

(** Every acquire that had its turn has returned or is queued; those that
    came back through the queue are no more than the releases served. *)
Lemma served_acquires (c : number) (opts : SemaphoreOpts) (w0 : World)
      (es : list event) :
  new_world c opts = Normal w0 ->
  order (completed (run es w0)) ++ waiting (sem (run es w0))
  = acquires_of (served_by es w0)
  /\ List.length (from_queue (completed (run es w0)))
     <= releases_of (served_by es w0).
Proof.
  intros Hnew. induction es as [| e es IH] using rev_ind.
  - apply new_world_inv in Hnew.
    destruct Hnew as (_ & _ & _ & Hw & _ & Hd & _).
    simpl. rewrite Hw, Hd. auto.
  - rewrite run_app, served_by_app.
    pose proof (@reachable_run _ opts w0 es Hnew) as Hr.
    pose proof (lock_free_reachable Hr) as Hh.
    destruct (served_reachable Hr) as [Hidle _].
    destruct IH as [IH1 IH2].
    set (w := run es w0) in *.
    rewrite acquires_of_app, releases_of_app, <- IH1.
    destruct e as [o |].
    + change (run [Call o] w) with (call o w). simpl.
      rewrite app_nil_r. split; [reflexivity | lia].
    + change (run [Serve] w) with (serve w).
      rewrite (served_by_serve w Hh).
      unfold order in *.
      destruct (serve_serves w) as
        [ Hb
        | Hn
        | c0 rest w' Hc Hg Hsem _ _ Hd _
        | c0 rest w' Hc Hg Hsem _ _ Hd _
        | c0 rest r queue w' Hc Hw Hsem _ _ Hd _
        | c0 rest w' Hc Hw Hl Hsem _ _ Hd _
        | c0 rest w' Hc Hw Hl Hsem _ _ Hd _ ].
      * congruence.
      * rewrite Hn. simpl. rewrite app_nil_r. split; [reflexivity | lia].
      * assert (Hw : waiting (sem w) = []).
        { destruct (waiting (sem w)) eqn:E; [reflexivity |].
          assert (gt (_permits (sem w)) zero = false)
            by (apply Hidle; rewrite E; discriminate).
          congruence. }
        rewrite Hc, Hsem, Hd, from_queue_app.
        change (from_queue [(c0, Immediate)]) with (@nil callid).
        simpl. rewrite Hw, map_app.
        unfold acquires_of, releases_of in *. simpl.
        rewrite !app_nil_r. split; [reflexivity | lia].
      * rewrite Hc, Hsem, Hd. simpl.
        unfold acquires_of, releases_of in *. simpl.
        rewrite app_assoc. split; [reflexivity | lia].
      * rewrite Hc, Hsem, Hd, from_queue_app.
        change (from_queue [(r, FromQueue)]) with [r].
        simpl. rewrite Hw, map_app.
        unfold acquires_of, releases_of in *. simpl.
        rewrite app_nil_r, <- app_assoc, length_app. simpl.
        split; [reflexivity | lia].
      * rewrite Hc, Hsem, Hd. simpl. rewrite Hw.
        unfold acquires_of, releases_of in *. simpl.
        rewrite !app_nil_r. split; [reflexivity | lia].
      * rewrite Hc, Hsem, Hd. rewrite Hw.
        unfold acquires_of, releases_of in *. simpl.
        rewrite !app_nil_r. split; [reflexivity | lia].
Qed.

(** The permits out never exceed the capacity: returned acquires plus idle
    permits are at most the capacity plus the releases served.  The capacity
    is an integer that the counter can count down from exactly. *)
Lemma permits_out (n : Z) (opts : SemaphoreOpts) (w0 : World)
      (es : list event) :
  (0 <= n <= 2 ^ 53)%Z ->
  new_world (of_Z n) opts = Normal w0 ->
  exists p : Z,
    _permits (sem (run es w0)) = of_Z p
    /\ (0 <= p <= n)%Z
    /\ (Z.of_nat (List.length (completed (run es w0))) + p
        <= n + Z.of_nat (releases_of (served_by es w0)))%Z.
Proof.
  intros Hn Hnew. induction es as [| e es IH] using rev_ind.
  - pose proof Hnew as Hi. apply new_world_inv in Hi.
    destruct Hi as (_ & Hp & _ & _ & _ & Hd & _).
    exists n. simpl. rewrite Hd. simpl. repeat split; auto; lia.
  - rewrite run_app, served_by_app, releases_of_app.
    pose proof (@reachable_run _ opts w0 es Hnew) as Hr.
    pose proof (lock_free_reachable Hr) as Hh.
    pose proof (capacity_reachable Hr) as Hm0.
    destruct IH as (p & Hp & Hpos & IH).
    set (w := run es w0) in *.
    destruct e as [o |].
    + change (run [Call o] w) with (call o w). exists p. simpl.
      unfold releases_of at 2. simpl. repeat split; auto; lia.
    + change (run [Serve] w) with (serve w).
      rewrite (served_by_serve w Hh).
      destruct (serve_serves w) as
        [ Hb
        | Hk
        | c0 rest w' Hc Hg Hsem _ _ Hd _
        | c0 rest w' Hc Hg Hsem _ _ Hd _
        | c0 rest r queue w' Hc Hw Hsem _ _ Hd _
        | c0 rest w' Hc Hw Hl Hsem _ _ Hd _
        | c0 rest w' Hc Hw Hl Hsem _ _ Hd _ ].
      * congruence.
      * exists p. rewrite Hk. unfold releases_of at 2. simpl.
        repeat split; auto; lia.
      * unfold gt, zero in Hg. rewrite Hp, lt_of_Z in Hg by lia.
        apply Z.ltb_lt in Hg.
        exists (p - 1)%Z. rewrite Hc, Hsem, Hd, length_app. simpl.
        rewrite Hp, dec_of_Z by lia. unfold releases_of at 2. simpl.
        repeat split; auto; lia.
      * exists p. rewrite Hc, Hsem, Hd. simpl.
        unfold releases_of at 2. simpl. repeat split; auto; lia.
      * exists p. rewrite Hc, Hsem, Hd, length_app. simpl.
        unfold releases_of at 2. simpl. repeat split; auto; lia.
      * rewrite Hp, Hm0, lt_of_Z in Hl by lia. apply Z.ltb_lt in Hl.
        exists (p + 1)%Z. rewrite Hc, Hsem, Hd. simpl.
        rewrite Hp, inc_of_Z by lia. unfold releases_of at 2. simpl.
        repeat split; auto; lia.
      * exists p. rewrite Hc, Hsem, Hd.
        unfold releases_of at 2. simpl. repeat split; auto; lia.
Qed.

End Accounting.

(** X4. With an integer capacity [0 <= n <= 2^53], along any schedule, the
    acquires that have returned plus the idle permits never exceed the
    capacity plus the releases served: at most [n] permits are out beyond
    those given back.  (Above 2^53 the counter can stop counting down, so
    the bound on [n] is needed.) *)
Theorem permits_out_within_capacity
        (n : Z) (opts : SemaphoreOpts) (w0 : World) (es : list event) :
  (0 <= n <= 2 ^ 53)%Z ->
  new_world (of_Z n) opts = Normal w0 ->
  (Z.of_nat (List.length (completed (run es w0)))
   <= n + Z.of_nat (releases_of (served_by es w0)))%Z
  /\ exists p : Z,
       permits (sem (run es w0)) = of_Z p
       /\ (0 <= p <= n)%Z
       /\ (Z.of_nat (List.length (completed (run es w0))) + p
           <= n + Z.of_nat (releases_of (served_by es w0)))%Z.
Proof.
  intros Hn Hnew.
  destruct (@permits_out n opts w0 es Hn Hnew) as (p & Hp & Hpos & Hb).
  split; [lia |]. exists p. auto.
Qed.

Lemma permits_out_within_capacity_witness :
  (Z.of_nat (List.length (completed (run More.mixed (Demo.fresh 2))))
   <= 2 + Z.of_nat (releases_of (served_by More.mixed (Demo.fresh 2))))%Z
  /\ exists p : Z,
       permits (sem (run More.mixed (Demo.fresh 2))) = of_Z p
       /\ (0 <= p <= 2)%Z
       /\ (Z.of_nat (List.length (completed (run More.mixed (Demo.fresh 2))))
           + p
           <= 2 + Z.of_nat (releases_of (served_by More.mixed (Demo.fresh 2))))%Z.
Proof.
  apply (@permits_out_within_capacity 2 no_opts (Demo.fresh 2) More.mixed).
  - lia.
  - reflexivity.
Defined.

(** X5. Whatever the capacity and the schedule: the acquires that returned,
    followed by the queue, are exactly the acquires that had their turn, in
    issue order.  No acquire is lost or served twice, and an acquire returns
    only after every acquire issued before it.  Returns through the queue
    are no more than the releases served. *)
Theorem acquires_return_oldest_first
        (c : number) (opts : SemaphoreOpts) (w0 : World) (es : list event) :
  new_world c opts = Normal w0 ->
  order (completed (run es w0)) ++ waiting (sem (run es w0))
  = acquires_of (served_by es w0)
  /\ List.length (from_queue (completed (run es w0)))
     <= releases_of (served_by es w0).
Proof. apply served_acquires. Qed.

Lemma acquires_return_oldest_first_witness :
  order (completed (run More.mixed (Demo.fresh 2)))
  ++ waiting (sem (run More.mixed (Demo.fresh 2)))
  = acquires_of (served_by More.mixed (Demo.fresh 2))
  /\ List.length (from_queue (completed (run More.mixed (Demo.fresh 2))))
     <= releases_of (served_by More.mixed (Demo.fresh 2)).
Proof.
  apply (@acquires_return_oldest_first (of_Z 2) no_opts (Demo.fresh 2)
           More.mixed).
  reflexivity.
Defined.

(* ------------------------------------------------------------------ *)
(** ** Runs of acquires, runs of releases *)

Section Runs.

Lemma only_acquires (k : nat) :
  forall l : list (callid * op),
    map snd l = repeat Acquire k ->
    filter is_acquire l = l /\ filter is_release l = [] /\ List.length l = k.
Proof.
  induction k as [| k IH]; intros l Hl.
  - destruct l; [auto | discriminate].
  - destruct l as [| [c o] l]; [discriminate |].
    simpl in Hl. injection Hl as -> Hl.
    destruct (IH l Hl) as (H1 & H2 & H3).
    unfold is_acquire, is_release in *. simpl. rewrite H1, H2, H3. auto.
Qed.

(** Acquires one after the other: the counter goes down to 0, then the
    callers line up. *)
Lemma exec_all_only_acquires (k : nat) :
  forall (l : list (callid * op)) (p : Z) (s : Semaphore),
    map snd l = repeat Acquire k ->
    _permits s = of_Z p -> (0 <= p <= 2 ^ 53)%Z ->
    waiting (exec_all l s) = waiting s ++ skipn (Z.to_nat p) (map fst l)
    /\ _permits (exec_all l s) = of_Z (Z.max 0 (p - Z.of_nat k)).
Proof.
  induction k as [| k IH]; intros l p s Hl Hp Hpos.
  - destruct l; [| discriminate]. simpl.
    rewrite skipn_nil, app_nil_r, Hp.
    replace (Z.max 0 (p - 0)) with p by lia. auto.
  - destruct l as [| [c o] l]; [discriminate |].
    simpl in Hl. injection Hl as -> Hl.
    change (exec_all ((c, Acquire) :: l) s)
      with (exec_all l (after (acquire c s))).
    destruct (gt (_permits s) zero) eqn:Hg.
    + destruct (acquire_granted s c Hg) as (_ & Ha & _). rewrite Ha.
      unfold gt, zero in Hg. rewrite Hp, lt_of_Z in Hg by lia.
      apply Z.ltb_lt in Hg.
      destruct (IH l (p - 1)%Z (with_permits (dec (_permits s)) s) Hl)
        as (Hw & Hq); [simpl; rewrite Hp; apply dec_of_Z; lia | lia |].
      rewrite Hw, Hq. simpl waiting.
      replace (Z.to_nat p) with (S (Z.to_nat (p - 1))) by lia.
      split; [reflexivity | f_equal; lia].
    + destruct (acquire_queued s c Hg) as (_ & Ha & _).
      unfold gt, zero in Hg. rewrite Hp, lt_of_Z in Hg by lia.
      apply Z.ltb_ge in Hg.
      assert (p = 0%Z) by lia. subst p.
      destruct (IH l 0%Z (after (acquire c s)) Hl)
        as (Hw & Hq); [rewrite Ha; exact Hp | lia |].
      rewrite Hw, Hq, Ha. simpl. rewrite <- app_assoc.
      split; [reflexivity | f_equal; lia].
Qed.

Lemma with_waiting_twice (q1 q2 : list resolver) (s : Semaphore) :
  with_waiting q2 (with_waiting q1 s) = with_waiting q2 s.
Proof. reflexivity. Qed.

Lemma with_waiting_same (s : Semaphore) : with_waiting (waiting s) s = s.
Proof. destruct s; reflexivity. Qed.

(** Awaited releases, one after the other, on a queue long enough: each
    one completes the head. *)
Lemma awaited_releases_wake (j : nat) :
  forall w : World,
    held w = false -> _lock w = [] ->
    j <= List.length (waiting (sem w)) ->
    sem (repeat_op j Release w)
    = with_waiting (skipn j (waiting (sem w))) (sem w)
    /\ completed (repeat_op j Release w)
       = completed w
         ++ map (fun i => (i, FromQueue)) (firstn j (waiting (sem w)))
    /\ _lock (repeat_op j Release w) = []
    /\ held (repeat_op j Release w) = false.
Proof.
  induction j as [| j IH]; intros w Hh Hc Hj.
  - simpl. rewrite with_waiting_same, app_nil_r. auto.
  - destruct (waiting (sem w)) as [| r queue] eqn:Hw; [simpl in Hj; lia |].
    cbn [repeat_op]. unfold perform.
    assert (Hcall : _lock (call Release w) = [(next_call w, Release)]).
    { simpl. rewrite Hc. reflexivity. }
    assert (Hw' : waiting (sem (call Release w)) = r :: queue) by exact Hw.
    assert (Hh' : held (call Release w) = false) by exact Hh.
    destruct (serve_serves (call Release w)) as
      [ Hb
      | Hn
      | c0 rest w' Hc' _ _ _ _ _ _
      | c0 rest w' Hc' _ _ _ _ _ _
      | c0 rest r0 queue0 w' Hc' Hq Hsem Hrest _ Hd _ Hheld
      | c0 rest w' _ Hq _ _ _ _ _ _
      | c0 rest w' _ Hq _ _ _ _ _ _ ];
      try congruence.
    rewrite Hw' in Hq. injection Hq as <- <-.
    rewrite Hcall in Hc'. injection Hc' as _ <-.
    assert (Hq' : waiting (sem w') = queue) by (rewrite Hsem; reflexivity).
    destruct (IH w' Hheld Hrest) as (H1 & H2 & H3 & H4).
    { rewrite Hq'. simpl in Hj. lia. }
    rewrite H1, H2, H3, H4, Hq', Hsem, Hd. simpl.
    rewrite <- app_assoc. auto.
Qed.

End Runs.

(** X6. With an integer capacity [0 <= n <= 2^53], if a schedule issues
    [k] acquires and nothing else and serves them all, then exactly the first
    [n] of them have returned, in issue order and none through the queue,
    the others are queued in issue order, and [max 0 (n - k)] permits
    remain.  (Above 2^53 a granted acquire can leave the counter where it
    was, so the bound on [n] is needed.) *)
Theorem first_acquires_take_the_permits
        (n : Z) (k : nat) (opts : SemaphoreOpts) (w0 : World)
        (es : list event) :
  (0 <= n <= 2 ^ 53)%Z ->
  new_world (of_Z n) opts = Normal w0 ->
  map snd (issued es 0) = repeat Acquire k ->
  _lock (run es w0) = [] ->
  order (completed (run es w0)) = firstn (Z.to_nat n) (seq 0 k)
  /\ from_queue (completed (run es w0)) = []
  /\ waiting (sem (run es w0)) = skipn (Z.to_nat n) (seq 0 k)
  /\ permits (sem (run es w0)) = of_Z (Z.max 0 (n - Z.of_nat k)).
Proof.
  intros Hn Hnew Hcalls Hdone.
  destruct (@served_acquires _ opts w0 es Hnew) as (Hacc & Hfq).
  pose proof Hnew as Hi. apply new_world_inv in Hi.
  destruct Hi as (_ & Hp & _ & Hw & Hc & _ & _ & Hnext & Hh).
  destruct (run_served_by es w0 Hh) as (Hd & Hs).
  rewrite Hc, Hnext, Hdone, app_nil_r in Hd. simpl in Hd.
  rewrite <- Hd in Hacc, Hfq.
  destruct (@only_acquires k (issued es 0) Hcalls) as (Ha & Hr & Hlen).
  unfold acquires_of in Hacc. unfold releases_of in Hfq.
  rewrite Ha in Hacc. rewrite Hr in Hfq. simpl in Hfq.
  rewrite issued_ids, Hlen in Hacc.
  destruct (@exec_all_only_acquires k (issued es 0) n (sem w0) Hcalls Hp Hn)
    as (Hq & Hperm).
  rewrite Hw, issued_ids, Hlen in Hq. simpl in Hq.
  rewrite Hs, <- Hd. unfold permits. rewrite Hperm, Hq.
  rewrite Hs, <- Hd, Hq in Hacc.
  rewrite <- (firstn_skipn (Z.to_nat n) (seq 0 k)) in Hacc at 2.
  apply app_inv_tail in Hacc.
  destruct (from_queue (completed (run es w0))); [| simpl in Hfq; lia].
  auto.
Qed.

Lemma first_acquires_take_the_permits_witness :
  order (completed (run More.four_acquires (Demo.fresh 2)))
  = firstn (Z.to_nat 2) (seq 0 4)
  /\ from_queue (completed (run More.four_acquires (Demo.fresh 2))) = []
  /\ waiting (sem (run More.four_acquires (Demo.fresh 2)))
     = skipn (Z.to_nat 2) (seq 0 4)
  /\ permits (sem (run More.four_acquires (Demo.fresh 2)))
     = of_Z (Z.max 0 (2 - Z.of_nat 4)).
Proof.
  apply (@first_acquires_take_the_permits 2 4 no_opts (Demo.fresh 2)
           More.four_acquires).
  - lia.
  - reflexivity.
  - reflexivity.
  - vm_compute. reflexivity.
Defined.

(** X7. With the lock free and no call pending, [j] awaited releases on a
    queue of at least [j] callers complete the first [j] of them, in queue
    order, leave the others queued and leave the counter and every other
    field as they were. *)
Theorem releases_wake_the_queue_in_order (j : nat) (w : World) :
  held w = false ->
  _lock w = [] ->
  j <= List.length (waiting (sem w)) ->
  sem (awaited_releases j w)
  = with_waiting (skipn j (waiting (sem w))) (sem w)
  /\ completed (awaited_releases j w)
     = completed w ++ map (fun i => (i, FromQueue)) (firstn j (waiting (sem w)))
  /\ _lock (awaited_releases j w) = []
  /\ held (awaited_releases j w) = false.
Proof. unfold awaited_releases. apply awaited_releases_wake. Qed.

Lemma releases_wake_the_queue_in_order_witness :
  sem (awaited_releases 2 Demo.three_queued)
  = with_waiting (skipn 2 (waiting (sem Demo.three_queued)))
      (sem Demo.three_queued)
  /\ completed (awaited_releases 2 Demo.three_queued)
     = completed Demo.three_queued
       ++ map (fun i => (i, FromQueue))
            (firstn 2 (waiting (sem Demo.three_queued)))
  /\ _lock (awaited_releases 2 Demo.three_queued) = []
  /\ held (awaited_releases 2 Demo.three_queued) = false.
Proof.
  apply (@releases_wake_the_queue_in_order 2 Demo.three_queued).
  - vm_compute. reflexivity.
  - vm_compute. reflexivity.
  - vm_compute. lia.
Defined.

(* ------------------------------------------------------------------ *)
(** ** Diagnostics *)

Section Diagnostics.

Lemma serve_erase (w : World) :
  erase_world (serve w) = erase_world (serve (erase_world w)).
Proof. by_cases w. Qed.

Lemma step_erase (e : event) (w : World) :
  erase_world (step e w) = erase_world (step e (erase_world w)).
Proof.
  destruct e as [o |]; [reflexivity | apply serve_erase].
Qed.

Lemma run_erase (es : list event) :
  forall w : World,
    erase_world (run es w) = erase_world (run es (erase_world w)).
Proof.
  induction es as [| e es IH]; intros w; [reflexivity |].
  change (run (e :: es) w) with (run es (step e w)).
  change (run (e :: es) (erase_world w))
    with (run es (step e (erase_world w))).
  rewrite (IH (step e w)), step_erase, <- IH. reflexivity.
Qed.

Lemma new_world_erase (c : number) (opts1 opts2 : SemaphoreOpts)
      (w1 w2 : World) :
  new_world c opts1 = Normal w1 ->
  new_world c opts2 = Normal w2 ->
  erase_world w1 = erase_world w2.
Proof.
  unfold new_world, constructor.
  destruct (lt c zero); [discriminate |].
  intros H1 H2. injection H1 as <-. injection H2 as <-. reflexivity.
Qed.

Lemma new_world_console (c : number) (opts : SemaphoreOpts) (w0 : World) :
  new_world c opts = Normal w0 ->
  (opt_debug opts = Some true /\ debug (sem w0) = true /\ console w0 <> [])
  \/ (opt_debug opts <> Some true /\ debug (sem w0) = false
      /\ console w0 = []).
Proof.
  unfold new_world, constructor.
  destruct (lt c zero); [discriminate |].
  intros H. injection H as <-.
  destruct (opt_debug opts) as [[|] |]; simpl;
    [left | right | right]; repeat split; discriminate.
Qed.

Lemma serve_debug (w : World) : debug (sem (serve w)) = debug (sem w).
Proof. by_cases w. Qed.

Lemma serve_silent (w : World) :
  debug (sem w) = false -> console (serve w) = console w.
Proof.
  destruct w as [[p q m d nm] l [|] nc comp rej con]; [reflexivity |].
  simpl. intros ->.
  destruct l as [| [c [|]] rest]; [reflexivity | |].
  - destruct (lt zero p) eqn:Hcmp;
      unfold serve; cbn [held _lock sem console];
      unfold acquire, acquire_critical, try_finally_releaseLock, bind, this,
        debug_log, set_permits, push, set_waiting, emit, ret, trace, gt;
      cbn [debug _permits]; rewrite Hcmp; simpl; apply app_nil_r.
  - destruct q as [| r queue].
    + destruct (lt p m) eqn:Hcmp;
        unfold serve; cbn [held _lock sem console];
        unfold release, try_finally_releaseLock, bind, this, shift,
          debug_log, debug_warn, set_permits, set_waiting, emit, ret, trace,
          after; cbn; rewrite Hcmp; cbn; apply app_nil_r.
    + unfold serve; cbn [held _lock sem console]. cbn. apply app_nil_r.
Qed.

Lemma serve_console_grows (w : World) :
  exists t : list action, console (serve w) = console w ++ t.
Proof.
  unfold serve. destruct (held w); [exists []; symmetry; apply app_nil_r |].
  destruct (_lock w) as [| [c [|]] rest].
  - exists []. symmetry. apply app_nil_r.
  - eexists. reflexivity.
  - destruct (resume (resolved_of (trace (release (sem w))))
                (after (release (sem w)))) as [s2 t2].
    eexists. reflexivity.
Qed.

Lemma run_debug (es : list event) :
  forall w : World, debug (sem (run es w)) = debug (sem w).
Proof.
  induction es as [| e es IH]; intros w; [reflexivity |].
  change (run (e :: es) w) with (run es (step e w)). rewrite IH.
  destruct e as [o |]; [reflexivity | apply serve_debug].
Qed.

Lemma run_silent (es : list event) :
  forall w : World,
    debug (sem w) = false -> console (run es w) = console w.
Proof.
  induction es as [| e es IH]; intros w Hd; [reflexivity |].
  change (run (e :: es) w) with (run es (step e w)).
  destruct e as [o |].
  - rewrite IH; [reflexivity | exact Hd].
  - cbn [step]. rewrite IH, serve_silent; auto.
    rewrite serve_debug. exact Hd.
Qed.

Lemma run_console_grows (es : list event) :
  forall w : World,
    exists t : list action, console (run es w) = console w ++ t.
Proof.
  induction es as [| e es IH]; intros w.
  - exists []. symmetry. apply app_nil_r.
  - change (run (e :: es) w) with (run es (step e w)).
    destruct (IH (step e w)) as [t Ht]. rewrite Ht.
    destruct e as [o |]; cbn [step].
    + exists t. reflexivity.
    + destruct (serve_console_grows w) as [t' Ht']. rewrite Ht'.
      exists (t' ++ t). symmetry. apply app_assoc.
Qed.

Lemma release_warns (s : Semaphore) :
  warns (trace (release s)) =
    debug s
    && match waiting s with
       | [] => negb (lt (_permits s) (_maxPermits s))
       | _ :: _ => false
       end.
Proof.
  destruct s as [p q m d nm]. cbn [debug waiting _permits _maxPermits].
  destruct q as [| r queue].
  - destruct (lt p m) eqn:Hcmp; destruct d;
      evaluate; rewrite ?Hcmp; reflexivity.
  - destruct d; evaluate; reflexivity.
Qed.

Lemma acquire_warns (s : Semaphore) (me : resolver) :
  warns (trace (acquire me s)) = false.
Proof.
  destruct s as [p q m d nm].
  destruct (lt zero p) eqn:Hcmp; destruct d;
    evaluate; rewrite ?Hcmp; reflexivity.
Qed.

End Diagnostics.

(** X8. The options [debug] and [name] only change what is logged: two
    instances built with the same capacity and any options, run along the
    same schedule, agree on the counter, the queue, the capacity, the lock
    chain, the acquires that returned and the calls rejected. *)
Theorem options_do_not_change_behaviour
        (c : number) (opts1 opts2 : SemaphoreOpts) (w1 w2 : World)
        (es : list event) :
  new_world c opts1 = Normal w1 ->
  new_world c opts2 = Normal w2 ->
  erase_world (run es w1) = erase_world (run es w2)
  /\ permits (sem (run es w1)) = permits (sem (run es w2))
  /\ waiting (sem (run es w1)) = waiting (sem (run es w2))
  /\ maxPermits (sem (run es w1)) = maxPermits (sem (run es w2))
  /\ _lock (run es w1) = _lock (run es w2)
  /\ completed (run es w1) = completed (run es w2)
  /\ rejected (run es w1) = rejected (run es w2).
Proof.
  intros H1 H2.
  assert (E : erase_world (run es w1) = erase_world (run es w2)).
  { rewrite (run_erase es w1), (run_erase es w2).
    rewrite (@new_world_erase c opts1 opts2 w1 w2 H1 H2). reflexivity. }
  split; [exact E |].
  pose proof (f_equal (fun w => _permits (sem w)) E) as Hp.
  pose proof (f_equal (fun w => waiting (sem w)) E) as Hq.
  pose proof (f_equal (fun w => _maxPermits (sem w)) E) as Hm.
  pose proof (f_equal _lock E) as Hl.
  pose proof (f_equal completed E) as Hc.
  pose proof (f_equal rejected E) as Hr.
  unfold permits, maxPermits. repeat split; assumption.
Qed.

Lemma options_do_not_change_behaviour_witness :
  erase_world (run More.mixed (Demo.fresh 2))
  = erase_world (run More.mixed More.verbose)
  /\ permits (sem (run More.mixed (Demo.fresh 2)))
     = permits (sem (run More.mixed More.verbose))
  /\ waiting (sem (run More.mixed (Demo.fresh 2)))
     = waiting (sem (run More.mixed More.verbose))
  /\ maxPermits (sem (run More.mixed (Demo.fresh 2)))
     = maxPermits (sem (run More.mixed More.verbose))
  /\ _lock (run More.mixed (Demo.fresh 2)) = _lock (run More.mixed More.verbose)
  /\ completed (run More.mixed (Demo.fresh 2))
     = completed (run More.mixed More.verbose)
  /\ rejected (run More.mixed (Demo.fresh 2))
     = rejected (run More.mixed More.verbose).
Proof.
  apply (@options_do_not_change_behaviour (of_Z 2) no_opts More.verbose_opts
           (Demo.fresh 2) More.verbose More.mixed).
  - reflexivity.
  - reflexivity.
Defined.

(** X9. The console stays empty along every schedule exactly when the
    [debug] option is not [true]; with [debug: true] the constructor's line
    is there from the start and nothing logged is ever taken back. *)
Theorem console_silent_unless_debug
        (c : number) (opts : SemaphoreOpts) (w0 : World) (es : list event) :
  new_world c opts = Normal w0 ->
  (console (run es w0) = [] <-> opt_debug opts <> Some true)
  /\ exists t : list action, console (run es w0) = console w0 ++ t.
Proof.
  intros Hnew. split; [| apply run_console_grows].
  destruct (@new_world_console c opts w0 Hnew)
    as [(Ho & Hd & Hc) | (Ho & Hd & Hc)].
  - destruct (run_console_grows es w0) as [t Ht]. rewrite Ht.
    split; [| congruence].
    intros E. apply app_eq_nil in E. tauto.
  - rewrite run_silent by exact Hd. tauto.
Qed.

Lemma console_silent_unless_debug_witness :
  (console (run More.mixed (Demo.fresh 2)) = []
   <-> opt_debug no_opts <> Some true)
  /\ exists t : list action,
       console (run More.mixed (Demo.fresh 2)) = console (Demo.fresh 2) ++ t.
Proof.
  apply (@console_silent_unless_debug (of_Z 2) no_opts (Demo.fresh 2)
           More.mixed).
  reflexivity.
Defined.

(** X10. [release] writes its warning exactly when [debug] is on, nobody
    is queued and the counter is not below the capacity; [acquire] never
    warns.  With [debug] off an over-release leaves no trace at all. *)
Theorem warning_marks_over_release (s : Semaphore) (me : resolver) :
  warns (trace (release s)) =
    debug s
    && match waiting s with
       | [] => negb (lt (permits s) (maxPermits s))
       | _ :: _ => false
       end
  /\ warns (trace (acquire me s)) = false
  /\ (debug s = false -> console_of (trace (release s)) = []).
Proof.
  split; [apply release_warns |]. split; [apply acquire_warns |].
  intros Hd. destruct s as [p q m d nm]. simpl in Hd. subst d.
  destruct q as [| r queue].
  - destruct (lt p m) eqn:Hcmp; evaluate; rewrite ?Hcmp; reflexivity.
  - evaluate. reflexivity.
Qed.

Lemma warning_marks_over_release_witness :
  console_of (trace (release (sem (Demo.fresh 2)))) = []
  /\ warns (trace (release (sem More.verbose))) = true.
Proof.
  split.
  - apply (proj2 (proj2 (warning_marks_over_release (sem (Demo.fresh 2)) 0))).
    reflexivity.
  - rewrite (proj1 (warning_marks_over_release (sem More.verbose) 0)).
    vm_compute. reflexivity.
Defined.

(* ------------------------------------------------------------------ *)
(** ** Capacities that are not integers *)

Section OtherCapacities.

Lemma nan_reachable (w : World) :
  reachable NaN w ->
  _permits (sem w) = NaN
  /\ _maxPermits (sem w) = NaN
  /\ (forall (k : callid) (g : grant),
        In (k, g) (completed w) -> g = FromQueue).
Proof.
  revert w. apply reachable_ind.
  - intros opts w0 H. apply new_world_inv in H.
    destruct H as (_ & Hp & Hm & _ & _ & Hd & _).
    rewrite Hd. repeat split; auto. intros k g [].
  - intros w o H. exact H.
  - intros w w' (Hp & Hm & Hc) Hstep.
    destruct Hstep as
      [ _
      | _
      | c rest w' _ Hg Hs _ _ Hd _
      | c rest w' _ Hg Hs _ _ Hd _
      | c rest r queue w' _ Hw Hs _ _ Hd _
      | c rest w' _ Hw Hl Hs _ _ Hd _
      | c rest w' _ Hw Hl Hs _ _ Hd _ ];
      try (rewrite Hs, Hd; simpl; auto; fail); auto.
    + rewrite Hp in Hg. discriminate.
    + rewrite Hs, Hd. simpl. repeat split; auto.
      intros k g Hin. apply in_app_or in Hin. destruct Hin as [Hin | Hin].
      * eapply Hc; eauto.
      * destruct Hin as [E | []]. congruence.
    + rewrite Hp, Hm in Hl. discriminate.
Qed.

Lemma minus_one_binary64 : round64 (inject_Z (-1)) = Fin (inject_Z (-1)).
Proof. vm_compute. reflexivity. Qed.

Lemma gt_zero_Fin (x : Q) : gt (Fin x) zero = true -> (0 < x)%Q.
Proof.
  rewrite zero_int. unfold gt, lt, int.
  destruct (Qlt_le_dec (inject_Z 0) x) as [H | H]; [| discriminate].
  intros _. exact H.
Qed.

Lemma lt_Fin (x y : Q) : lt (Fin x) (Fin y) = true -> (x < y)%Q.
Proof.
  unfold lt. destruct (Qlt_le_dec x y) as [H | H]; [| discriminate].
  intros _. exact H.
Qed.

(** One step down from a positive binary64 value: a binary64 value, no
    lower than -1 and no higher than before. *)
Lemma dec_ranged (x : Q) :
  round64 x = Fin x -> (0 < x)%Q ->
  exists x' : Q,
    dec (Fin x) = Fin x' /\ round64 x' = Fin x'
    /\ (-1 <= x')%Q /\ (x' <= x)%Q.
Proof.
  intros Hx Hpos.
  pose proof (dec_below Hx) as Hhi.
  assert (Hlo : le (Fin (inject_Z (-1))) (dec (Fin x)) = true).
  { rewrite <- minus_one_binary64. unfold dec. apply round64_mono.
    rewrite <- (Qplus_0_l (inject_Z (-1))).
    apply Qplus_le_compat; [apply Qlt_le_weak; exact Hpos | apply Qle_refl]. }
  destruct (dec (Fin x)) as [x' | | |] eqn:E; try discriminate.
  exists x'. split; [reflexivity |]. split.
  - unfold dec in E. apply (round64_idem _ E).
  - split; [apply le_Fin in Hlo; exact Hlo | apply le_Fin; exact Hhi].
Qed.

(** One step up from a binary64 value below [q]: a binary64 value, no lower
    than before and no higher than one step up from [q]. *)
Lemma inc_ranged (q b x : Q) :
  inc (Fin q) = Fin b -> round64 x = Fin x -> (x < q)%Q ->
  exists x' : Q,
    inc (Fin x) = Fin x' /\ round64 x' = Fin x'
    /\ (x <= x')%Q /\ (x' <= b)%Q.
Proof.
  intros Hb Hx Hlt.
  pose proof (inc_above Hx) as Hlo.
  assert (Hhi : le (inc (Fin x)) (Fin b) = true).
  { rewrite <- Hb. apply inc_mono. apply Qlt_le_weak. exact Hlt. }
  destruct (inc (Fin x)) as [x' | | |] eqn:E; try discriminate.
  exists x'. split; [reflexivity |]. split.
  - unfold inc in E. apply (round64_idem _ E).
  - split; [apply le_Fin; exact Hlo | apply le_Fin; exact Hhi].
Qed.

Lemma ranged_serves (q b : Q) (w w' : World) :
  inc (Fin q) = Fin b ->
  ranged q b (sem w) -> serves w w' -> ranged q b (sem w').
Proof.
  intros Hb (x & Hp & Hm & Hx & Hlo & Hhi) Hstep.
  destruct Hstep as
    [ _
    | _
    | c rest w' _ Hg Hs _ _ _ _
    | c rest w' _ Hg Hs _ _ _ _
    | c rest r queue w' _ Hw Hs _ _ _ _
    | c rest w' _ Hw Hl Hs _ _ _ _
    | c rest w' _ Hw Hl Hs _ _ _ _ ].
  - exists x. auto.
  - exists x. auto.
  - rewrite Hp in Hg. apply gt_zero_Fin in Hg.
    destruct (dec_ranged Hx Hg) as (x' & Hd & Hx' & Hlo' & Hhi').
    exists x'. rewrite Hs. simpl. rewrite Hp, Hd.
    repeat split; auto. apply (Qle_trans _ x); assumption.
  - exists x. rewrite Hs. simpl. auto.
  - exists x. rewrite Hs. simpl. auto.
  - rewrite Hp, Hm in Hl. apply lt_Fin in Hl.
    destruct (inc_ranged Hb Hx Hl) as (x' & Hi & Hx' & Hlo' & Hhi').
    exists x'. rewrite Hs. simpl. rewrite Hp, Hi.
    repeat split; auto. apply (Qle_trans _ x); assumption.
  - exists x. rewrite Hs. auto.
Qed.

Lemma ranged_reachable (q b : Q) (w : World) :
  round64 q = Fin q -> (0 <= q)%Q -> inc (Fin q) = Fin b ->
  reachable (Fin q) w -> ranged q b (sem w).
Proof.
  intros Hq Hpos Hb. revert w. apply reachable_ind.
  - intros opts w0 H. apply new_world_inv in H.
    destruct H as (_ & Hp & Hm & _).
    exists q. repeat split; auto.
    + apply (Qle_trans _ 0); [| exact Hpos]. unfold Qle. simpl. lia.
    + pose proof (inc_above Hq) as Hle. rewrite Hb in Hle.
      apply le_Fin. exact Hle.
  - intros w o H. exact H.
  - intros w w' H Hstep. eapply ranged_serves; eauto.
Qed.

End OtherCapacities.

(** X11. With any finite capacity [q >= 0] (a binary64 value, integer or
    not), in every reachable world the counter is a binary64 value, never an
    infinity or NaN, no lower than -1 and no higher than [b], the binary64
    value one step up from [q]; the capacity is [q].  Both ends are met with
    capacities that are not integers: see [tenth_capacity_overshoots] and
    [tiny_capacity_reaches_minus_one]. *)
Theorem finite_capacity_counter (q : Q) (w : World) :
  round64 q = Fin q ->
  (0 <= q)%Q ->
  reachable (Fin q) w ->
  exists x b : Q,
    permits (sem w) = Fin x
    /\ maxPermits (sem w) = Fin q
    /\ inc (Fin q) = Fin b
    /\ round64 x = Fin x
    /\ (-1 <= x)%Q
    /\ (x <= b)%Q.
Proof.
  intros Hq Hpos Hr.
  destruct (inc_finite Hq) as (b & Hb & _ & _).
  destruct (ranged_reachable Hq Hpos Hb Hr) as (x & Hp & Hm & Hx & Hlo & Hhi).
  exists x, b. auto 10.
Qed.

Lemma finite_capacity_counter_witness :
  exists x b : Q,
    permits (sem (run More.in_out_out More.a_tenth)) = Fin x
    /\ maxPermits (sem (run More.in_out_out More.a_tenth))
       = Fin (3602879701896397 # 36028797018963968)
    /\ inc (Fin (3602879701896397 # 36028797018963968)) = Fin b
    /\ round64 x = Fin x
    /\ (-1 <= x)%Q
    /\ (x <= b)%Q.
Proof.
  apply (@finite_capacity_counter (3602879701896397 # 36028797018963968)
           (run More.in_out_out More.a_tenth)).
  - vm_compute. reflexivity.
  - vm_compute. discriminate.
  - exists no_opts, More.a_tenth, More.in_out_out.
    split; vm_compute; reflexivity.
Defined.

(** With capacity 0.1, an acquire and two releases leave the counter at the
    binary64 value of 1.1, one step up from the capacity and above it: the
    second release still finds [permits < maxPermits]. *)
Remark tenth_capacity_overshoots :
  reachable (round64 (1 # 10)) (run More.in_out_out More.a_tenth)
  /\ permits (sem (run More.in_out_out More.a_tenth)) = round64 (11 # 10)
  /\ permits (sem (run More.in_out_out More.a_tenth))
     = inc (maxPermits (sem (run More.in_out_out More.a_tenth)))
  /\ lt (maxPermits (sem (run More.in_out_out More.a_tenth)))
        (permits (sem (run More.in_out_out More.a_tenth))) = true.
Proof.
  split.
  - exists no_opts, More.a_tenth, More.in_out_out.
    split; vm_compute; reflexivity.
  - vm_compute. repeat split.
Qed.

(** With capacity 1e-20, the first acquire is granted and leaves the counter
    at exactly -1. *)
Remark tiny_capacity_reaches_minus_one :
  new_world (round64 (1 # 10 ^ 20)) no_opts = Normal More.tiny
  /\ permits (sem (run [Call Acquire; Serve] More.tiny)) = int (-1)
  /\ order (completed (run [Call Acquire; Serve] More.tiny)) = [0].
Proof. vm_compute. repeat split. Qed.

(** X12. [new Semaphore(NaN)] does not throw, and the instance then never
    grants a permit at once and never changes its counter: every acquire
    that returns was completed by a release. *)
Theorem nan_capacity_always_queues (opts : SemaphoreOpts) (w : World) :
  (exists w0 : World, new_world NaN opts = Normal w0)
  /\ (reachable NaN w ->
      permits (sem w) = NaN
      /\ maxPermits (sem w) = NaN
      /\ (forall me : resolver, outcome (acquire me (sem w)) = Normal true)
      /\ (forall (k : callid) (g : grant),
            In (k, g) (completed w) -> g = FromQueue)).
Proof.
  split; [eexists; reflexivity |].
  intros Hr. destruct (nan_reachable Hr) as (Hp & Hm & Hc).
  unfold permits, maxPermits. repeat split; auto.
  intros me. rewrite acquire_never_throws, Hp. reflexivity.
Qed.

Lemma nan_capacity_always_queues_witness :
  permits (sem (run More.mixed More.not_a_number)) = NaN
  /\ maxPermits (sem (run More.mixed More.not_a_number)) = NaN
  /\ (forall me : resolver,
        outcome (acquire me (sem (run More.mixed More.not_a_number)))
        = Normal true)
  /\ (forall (k : callid) (g : grant),
        In (k, g) (completed (run More.mixed More.not_a_number)) ->
        g = FromQueue).
Proof.
  apply (proj2 (nan_capacity_always_queues no_opts
                  (run More.mixed More.not_a_number))).
  exists no_opts, More.not_a_number, More.mixed. split; reflexivity.
Defined.

(** X13. [new Semaphore(Infinity)] does not throw, and the instance never
    queues anybody: the counter stays infinite, the queue stays empty and
    every acquire that had its turn returned at once. *)
Theorem infinite_capacity_never_queues (opts : SemaphoreOpts) (w : World) :
  (exists w0 : World, new_world PosInf opts = Normal w0)
  /\ (reachable PosInf w ->
      permits (sem w) = PosInf
      /\ waiting (sem w) = []
      /\ (forall me : resolver, outcome (acquire me (sem w)) = Normal false)
      /\ (forall (k : callid) (g : grant),
            In (k, g) (completed w) -> g = Immediate)).
Proof.
  split; [eexists; reflexivity |].
  intros Hr. destruct (infinite_reachable Hr) as (Hp & Hw & Hc).
  unfold permits. repeat split; auto.
  intros me. rewrite acquire_never_throws, Hp. reflexivity.
Qed.

Lemma infinite_capacity_never_queues_witness :
  permits (sem (run More.mixed More.unbounded)) = PosInf
  /\ waiting (sem (run More.mixed More.unbounded)) = []
  /\ (forall me : resolver,
        outcome (acquire me (sem (run More.mixed More.unbounded)))
        = Normal false)
  /\ (forall (k : callid) (g : grant),
        In (k, g) (completed (run More.mixed More.unbounded)) ->
        g = Immediate).
Proof.
  apply (proj2 (infinite_capacity_never_queues no_opts
                  (run More.mixed More.unbounded))).
  exists no_opts, More.unbounded, More.mixed. split; reflexivity.
Defined.

(** X14. Whatever the capacity, in every reachable world nobody is queued
    while a permit is available: a non-empty queue comes with a counter
    that is not above 0. *)
Theorem no_permit_idle_while_queued (c : number) (w : World) :
  reachable c w ->
  waiting (sem w) <> [] ->
  gt (permits (sem w)) zero = false.
Proof.
  intros Hr Hne. destruct (served_reachable Hr) as [Hidle _].
  apply Hidle. exact Hne.
Qed.

Lemma no_permit_idle_while_queued_witness :
  gt (permits (sem (run More.four_acquires More.two_and_a_half))) zero = false.
Proof.
  apply (@no_permit_idle_while_queued (Fin (5 # 2))
           (run More.four_acquires More.two_and_a_half)).
  - exists no_opts, More.two_and_a_half, More.four_acquires.
    split; reflexivity.
  - vm_compute. discriminate.
Defined.
